(** * asyncgenfun: bridging async generators and multiplexing processors

    A shallow embedding of [code.py].

    An async generator object is seen the way its drivers see it: a parked
    frame and the result of one [send] on the awaitable returned by
    [__anext__()].  The two drivers of the source, [unwrap_aiter] and
    [gather_processors], are loops over that protocol; [wrap_aiter] and
    [read_input_lines] are generators given by their frames; an
    [async def] body that consumes an async iterable is a control-flow graph
    of [yield], [await it.__anext__()], [return] and [raise], and calling it
    on an async iterable gives a generator again.

    Both drivers read a yielded value as [exn.args[0]] of the
    [StopIteration] that carries it.  A yielded [None] gives a
    [StopIteration] without arguments, so there both drivers raise
    [IndexError]; values are therefore told apart as [None] or not
    ([PyValue]).

    Loops that the source does not bound ([while True], a body that never
    reaches a [yield]) take fuel; a result obtained with some fuel is kept
    with more.  A run of the scheduler is recorded [send] by [send]; the
    events the source yields are read off the record.

    Strings are the sequences of their code points, all below 256; the
    builtins [str.split], [str.endswith], [repr] and [str] of an [int] are
    given for such strings. *)

From Stdlib Require Import String Ascii DecimalString.
From Stdlib Require Import List Arith Lia Bool Sorted.
Import ListNotations.
Local Open Scope list_scope.

(** ** Values and exceptions *)

(** Exceptions other than the two protocol signals [StopIteration] and
    [StopAsyncIteration], which are outcomes of [send] below. *)
Inductive exn : Type :=
| TypeError
| AttributeError
| IndexError
| Exception (msg : string).

(** What a driver passes to [send]: [None], an element of the input iterable
    that is not [None], or the sentinel.  [sentinel = object()] is a fresh
    object, so it is distinct (by identity) from [None] and from every
    element. *)
Inductive value (T : Type) : Type :=
| VNone
| VTok (x : T)
| VSentinel.
Arguments VNone {T}.
Arguments VTok {T} x.
Arguments VSentinel {T}.

(** [line is sentinel] *)
Definition is_sentinel {T} (v : value T) : bool :=
  match v with VSentinel => true | _ => false end.

(** [x is None], for the values a generator yields and for the elements of
    an input.  [StopIteration] carries a yielded [None] as no argument at
    all, so the drivers, which read [exn.args[0]], tell [None] from every
    other value. *)
Class PyValue (A : Type) : Type := is_none : A -> bool.

#[export] Instance string_value : PyValue string := fun _ => false.

#[export] Instance value_value {T} : PyValue (value T) :=
  fun v => match v with VNone => true | _ => false end.

(** A value that may be [None]. *)
#[export] Instance option_value {A} : PyValue (option A) :=
  fun o => match o with None => true | Some _ => false end.

(** An element of an input as the feed carries it: [None] is the one
    [None]. *)
Definition tok {T} `{PyValue T} (x : T) : value T :=
  if is_none x then VNone else VTok x.

(** How a generator, or the loop that drives it, ends. *)
Inductive ending : Type :=
| Completed
| Aborted (e : exn)
| Unfinished.

(** ** The protocol of an async generator *)

(** The result of [o.send(v)] where [o = g.__anext__()]:
    - [StopIteration x g]: the generator ran to a [yield x];
    - [Pending g]: an [await] inside the generator suspended, [send] returned
      (the value it returns is the [None] of [read_input_line.__await__] and
      both drivers discard it);
    - [StopAsyncIteration]: the generator returned;
    - [Raises e]: any other exception;
    - [Diverges]: the call does not come back. *)
Inductive outcome (A G : Type) : Type :=
| StopIteration (x : A) (g : G)
| Pending (g : G)
| StopAsyncIteration
| Raises (e : exn)
| Diverges.
Arguments StopIteration {A G} x g.
Arguments Pending {A G} g.
Arguments StopAsyncIteration {A G}.
Arguments Raises {A G} e.
Arguments Diverges {A G}.

(** An async generator object yielding [A]s: the frame it is parked in and
    what one [send] does from a frame. *)
Record asyncgen (T A : Type) : Type := AsyncGen {
  frame : Type;
  parked : frame;
  gen_send : frame -> value T -> outcome A frame
}.
Arguments AsyncGen {T A frame} parked gen_send.
Arguments frame {T A} a.
Arguments parked {T A} a.
Arguments gen_send {T A} a f v.

Definition reparked {T A} (g : asyncgen T A) (f : frame g) : asyncgen T A :=
  AsyncGen f (gen_send g).

Definition send {T A} (g : asyncgen T A) (v : value T)
  : outcome A (asyncgen T A) :=
  match gen_send g (parked g) v with
  | StopIteration x f => StopIteration x (reparked g f)
  | Pending f => Pending (reparked g f)
  | StopAsyncIteration => StopAsyncIteration
  | Raises e => Raises e
  | Diverges => Diverges
  end.

(** ** [wrap_aiter] *)

(** [async def wrap_aiter(iterable): for x in iterable: yield x] *)
Inductive wrap_frame (A : Type) : Type :=
| WrapCreated (iterable : list A)
| WrapYielded (rest : list A).
Arguments WrapCreated {A} iterable.
Arguments WrapYielded {A} rest.

Definition wrap_next {A} (rest : list A) : outcome A (wrap_frame A) :=
  match rest with
  | [] => StopAsyncIteration
  | x :: rest' => StopIteration x (WrapYielded rest')
  end.

(** A just-started generator accepts only [None]. *)
Definition wrap_send {T A} (f : wrap_frame A) (v : value T)
  : outcome A (wrap_frame A) :=
  match f with
  | WrapCreated iterable =>
      match v with
      | VNone => wrap_next iterable
      | _ => Raises TypeError
      end
  | WrapYielded rest => wrap_next rest
  end.

Definition wrap_aiter {T A} (iterable : list A) : asyncgen T A :=
  AsyncGen (WrapCreated iterable) wrap_send.

(** ** [unwrap_aiter] *)

(** One unit of fuel per turn of [while True].  After [StopIteration] the
    source takes a new [g.__anext__()], after a [send] that returns it sends
    to the same awaitable again: both resume [g] with [None].
    [yield exn.args[0]] raises [IndexError] when the generator yielded
    [None]: the arguments of that [StopIteration] are empty. *)
Fixpoint unwrap_aiter {T A} `{PyValue A} (fuel : nat) (g : asyncgen T A)
  : list A * ending :=
  match fuel with
  | 0 => ([], Unfinished)
  | S fuel' =>
      match send g VNone with
      | StopIteration x g' =>
          if is_none x then ([], Aborted IndexError)
          else let (xs, e) := unwrap_aiter fuel' g' in (x :: xs, e)
      | Pending g' => unwrap_aiter fuel' g'
      | StopAsyncIteration => ([], Completed)
      | Raises e => ([], Aborted e)
      | Diverges => ([], Unfinished)
      end
  end.

(** ** Async generator functions *)

(** The body of an [async def] with one parameter, the async iterable it
    consumes, as a control-flow graph: from a label the body runs to its next
    action.  [Anext k] is [await async_iterable.__anext__()], the step of an
    [async for]; [k (Some x)] continues with the item, [k None] after
    [StopAsyncIteration].  Only the consumption of input can suspend. *)
Inductive action (I O L : Type) : Type :=
| Yield (o : O) (next : L)
| Anext (k : option I -> L)
| Return
| Raise (e : exn).
Arguments Yield {I O L} o next.
Arguments Anext {I O L} k.
Arguments Return {I O L}.
Arguments Raise {I O L} e.

Record agenfun (I O : Type) : Type := AGenFun {
  label : Type;
  entry : label;
  code : label -> action I O label
}.
Arguments AGenFun {I O label} entry code.
Arguments label {I O} a.
Arguments entry {I O} a.
Arguments code {I O} a l.

(** Frames of the generator [f(it)].  The argument [it] is kept as its own
    parked frame, [None] once it has returned: [__anext__()] of a finished
    async generator raises [StopAsyncIteration] at once. *)
Inductive call_frame (L I F : Type) : Type :=
| CallCreated (it : F)
| CallYielded (s : L) (it : option F)
| CallAwaiting (k : option I -> L) (it : F).
Arguments CallCreated {L I F} it.
Arguments CallYielded {L I F} s it.
Arguments CallAwaiting {L I F} k it.

Section Call.
Context {T I O : Type} (f : agenfun I O) (it : asyncgen T I).

(** Runs the body from label [s] to its next [yield], suspension, return or
    exception; [budget] bounds the actions taken on the way.  An exception
    of the argument generator is passed on. *)
Fixpoint run (budget : nat) (s : label f) (arg : option (frame it))
  : outcome O (call_frame (label f) I (frame it)) :=
  match budget with
  | 0 => Diverges
  | S budget' =>
      match code f s with
      | Yield o s' => StopIteration o (CallYielded s' arg)
      | Return => StopAsyncIteration
      | Raise e => Raises e
      | Anext k =>
          match arg with
          | None => run budget' (k None) None
          | Some fr =>
              match gen_send it fr VNone with
              | StopIteration x fr' => run budget' (k (Some x)) (Some fr')
              | Pending fr' => Pending (CallAwaiting k fr')
              | StopAsyncIteration => run budget' (k None) None
              | Raises e => Raises e
              | Diverges => Diverges
              end
          end
      end
  end.

(** [send] on a frame of [f(it)].  A value sent while the body is inside
    [await it.__anext__()] is passed to that awaitable. *)
Definition call_send (budget : nat)
    (fr : call_frame (label f) I (frame it)) (v : value T)
  : outcome O (call_frame (label f) I (frame it)) :=
  match fr with
  | CallCreated a =>
      match v with
      | VNone => run budget (entry f) (Some a)
      | _ => Raises TypeError
      end
  | CallYielded s arg => run budget s arg
  | CallAwaiting k a =>
      match gen_send it a v with
      | StopIteration x a' => run budget (k (Some x)) (Some a')
      | Pending a' => Pending (CallAwaiting k a')
      | StopAsyncIteration => run budget (k None) None
      | Raises e => Raises e
      | Diverges => Diverges
      end
  end.

(** [async_generator_function(iterable)] *)
Definition call (budget : nat) : asyncgen T O :=
  AsyncGen (CallCreated (parked it)) (call_send budget).

End Call.

(** ** [syncgenerator] *)

(** The argument of [wrapper]: [hasattr(iterable, '__aiter__')] tells the two
    apart. *)
Inductive iterable (T I : Type) : Type :=
| PlainIterable (xs : list I)
| AsyncIterable (it : asyncgen T I).
Arguments PlainIterable {T I} xs.
Arguments AsyncIterable {T I} it.

(** What [wrapper] returns: the async generator itself, or the plain
    generator [unwrap_aiter(g)]. *)
Inductive generator (T O : Type) : Type :=
| AsyncGenerator (g : asyncgen T O)
| PlainGenerator (g : asyncgen T O).
Arguments AsyncGenerator {T O} g.
Arguments PlainGenerator {T O} g.

Definition syncgenerator {T I O} (budget : nat)
    (async_generator_function : agenfun I O) (arg : iterable T I)
  : generator T O :=
  match arg with
  | AsyncIterable it => AsyncGenerator (call async_generator_function it budget)
  | PlainIterable xs =>
      PlainGenerator (call async_generator_function (wrap_aiter xs) budget)
  end.

(** [list(g)]: an async generator is not iterable. *)
Definition iterate {T O} `{PyValue O} (fuel : nat) (g : generator T O)
  : list O * ending :=
  match g with
  | PlainGenerator g => unwrap_aiter fuel g
  | AsyncGenerator _ => ([], Aborted TypeError)
  end.

(** The reference the bridging is compared with: the body executed directly
    and synchronously over the plain sequence, every [Anext] answered from the
    list at once. *)
Fixpoint run_direct {I O} (f : agenfun I O) (fuel : nat)
    (s : label f) (xs : list I) : list O * ending :=
  match fuel with
  | 0 => ([], Unfinished)
  | S fuel' =>
      match code f s with
      | Yield o s' =>
          let (os, e) := run_direct f fuel' s' xs in (o :: os, e)
      | Anext k =>
          match xs with
          | [] => run_direct f fuel' (k None) []
          | x :: rest => run_direct f fuel' (k (Some x)) rest
          end
      | Return => ([], Completed)
      | Raise e => ([], Aborted e)
      end
  end.

(** ** [read_input_line] and [read_input_lines] *)

(** [def __await__(self): return (yield None)]: the await suspends once and
    its value is what the driver sends. *)
Definition read_input_line {T} (delivered : value T) : value T := delivered.

Inductive relay_frame : Type :=
| RelayCreated
| RelayAwaiting
| RelayYielded.

Definition read_input_lines_send {T} (fr : relay_frame) (v : value T)
  : outcome (value T) relay_frame :=
  match fr with
  | RelayCreated =>
      match v with
      | VNone => Pending RelayAwaiting
      | _ => Raises TypeError
      end
  | RelayAwaiting =>
      let line := read_input_line v in
      if is_sentinel line then StopAsyncIteration
      else StopIteration line RelayYielded
  | RelayYielded => Pending RelayAwaiting
  end.

(** [read_input_lines(sentinel)] *)
Definition read_input_lines {T} : asyncgen T (value T) :=
  AsyncGen RelayCreated read_input_lines_send.

(** ** [gather_processors] *)

(** [gens[i]]: a new [iters[i].__anext__()] not yet sent to, one that was sent
    to and returned (its generator is inside an [await]), or [None]. *)
Inductive slot (T O : Type) : Type :=
| Fresh (g : asyncgen T O)
| Awaiting (g : asyncgen T O)
| Finished.
Arguments Fresh {T O} g.
Arguments Awaiting {T O} g.
Arguments Finished {T O}.

(** What one [gens[i].send(to_send)] did.  [Yielded o] is a [StopIteration]
    whose first argument is [o]; [YieldedNone] is the [StopIteration] of a
    generator that yielded [None], which has no argument. *)
Inductive response (O : Type) : Type :=
| Yielded (o : O)
| YieldedNone
| Suspended
| Stopped
| Failed (e : exn)
| Hung.
Arguments Yielded {O} o.
Arguments YieldedNone {O}.
Arguments Suspended {O}.
Arguments Stopped {O}.
Arguments Failed {O} e.
Arguments Hung {O}.

(** One [gens[i].send(to_send)] of a run: the position [pos] of [line] in the
    feed, the processor [idx], the number [sub] of events the processor has
    emitted so far for this [line], whether the awaitable had been sent to
    before ([in_await]: the value resumes an [await]), the value and the
    response. *)
Record step (T O : Type) : Type := Step {
  pos : nat;
  idx : nat;
  sub : nat;
  in_await : bool;
  sent : value T;
  resp : response O
}.
Arguments Step {T O} pos idx sub in_await sent resp.
Arguments pos {T O} s.
Arguments idx {T O} s.
Arguments sub {T O} s.
Arguments in_await {T O} s.
Arguments sent {T O} s.
Arguments resp {T O} s.

(** How the inner [while True] leaves a processor. *)
Inductive advanced (T O : Type) : Type :=
| Parked (s : slot T O)
| Raised (e : exn)
| Stalled.
Arguments Parked {T O} s.
Arguments Raised {T O} e.
Arguments Stalled {T O}.

Section Scheduler.
Context {T O : Type} {HT : PyValue T} {HO : PyValue O}.

(** The [while True] loop for processor [i] and one [line]; one unit of fuel
    per turn.  [yield i, exn.args[0]] raises [IndexError] out of the loop
    when the generator yielded [None]; nothing is yielded then. *)
Fixpoint advance (fuel : nat) (p i j : nat) (awaited : bool)
    (g : asyncgen T O) (to_send : value T)
  : list (step T O) * advanced T O :=
  match fuel with
  | 0 => ([], Stalled)
  | S fuel' =>
      match send g to_send with
      | StopIteration o g' =>
          if is_none o
          then ([Step p i j awaited to_send YieldedNone], Raised IndexError)
          else
            let (l, r) := advance fuel' p i (S j) false g' VNone in
            (Step p i j awaited to_send (Yielded o) :: l, r)
      | Pending g' =>
          ([Step p i j awaited to_send Suspended], Parked (Awaiting g'))
      | StopAsyncIteration =>
          ([Step p i j awaited to_send Stopped], Parked Finished)
      | Raises e => ([Step p i j awaited to_send (Failed e)], Raised e)
      | Diverges => ([Step p i j awaited to_send Hung], Stalled)
      end
  end.

(** [for i in range(len(processors))], from index [i] on.  After an
    exception nothing reads the slots again. *)
Fixpoint for_processors (fuel : nat) (p i : nat) (line : value T)
    (gens : list (slot T O))
  : list (step T O) * list (slot T O) * ending :=
  match gens with
  | [] => ([], [], Completed)
  | Finished :: rest =>
      let '(l, rest', e) := for_processors fuel p (S i) line rest in
      (l, Finished :: rest', e)
  | (Fresh g as s) :: rest | (Awaiting g as s) :: rest =>
      let awaited := match s with Awaiting _ => true | _ => false end in
      match advance fuel p i 0 awaited g line with
      | (l, Parked s') =>
          let '(l', rest', e) := for_processors fuel p (S i) line rest in
          (l ++ l', s' :: rest', e)
      | (l, Raised e) => (l, s :: rest, Aborted e)
      | (l, Stalled) => (l, s :: rest, Unfinished)
      end
  end.

(** [for line in iterable], from position [p] of the feed on. *)
Fixpoint for_lines (fuel : nat) (p : nat) (feed : list (value T))
    (gens : list (slot T O))
  : list (step T O) * list (slot T O) * ending :=
  match feed with
  | [] => ([], gens, Completed)
  | line :: feed' =>
      match for_processors fuel p 0 line gens with
      | (l, gens', Completed) =>
          let '(l', gens'', e) := for_lines fuel (S p) feed' gens' in
          (l ++ l', gens'', e)
      | (l, gens', e) => (l, gens', e)
      end
  end.

(** [itertools.chain([None], iterable, [sentinel])] *)
Definition effective_feed (iterable : list T) : list (value T) :=
  [VNone] ++ map tok iterable ++ [VSentinel].

(** The run with every [send] recorded. *)
Definition gather_steps (fuel : nat)
    (processor_functions : list (asyncgen T (value T) -> asyncgen T O))
    (iterable : list T)
  : list (step T O) * list (slot T O) * ending :=
  let processors := map (fun p => p read_input_lines) processor_functions in
  let gens := map Fresh processors in
  for_lines fuel 0 (effective_feed iterable) gens.

(** [yield i, exn.args[0]] *)
Definition event (s : step T O) : list (nat * O) :=
  match resp s with
  | Yielded o => [(idx s, o)]
  | _ => []
  end.

Definition events (l : list (step T O)) : list (nat * O) :=
  flat_map event l.

(** What iterating [gather_processors(processor_functions, iterable)]
    produces, and how the iteration ends. *)
Definition gather_processors (fuel : nat)
    (processor_functions : list (asyncgen T (value T) -> asyncgen T O))
    (iterable : list T)
  : list (nat * O) * ending :=
  let '(l, _, e) := gather_steps fuel processor_functions iterable in
  (events l, e).

End Scheduler.

(** ** [exclaim_async_iterable] *)

(** [line.endswith(suffix)] *)
Definition endswith (line suffix : string) : bool :=
  let n := String.length line in
  let m := String.length suffix in
  (m <=? n) && String.eqb (substring (n - m) m line) suffix.

Inductive exclaim_label : Type :=
| ExclaimEntry
| ExclaimFor
| ExclaimLine (line : value string)
| ExclaimYelled (line : string)
| ExclaimEnd.

Section Exclaim.
(** ['Someone yelled %r' % (line,)], the formatting left open. *)
Variable yelled : string -> string.

Definition exclaim_for (r : option (value string)) : exclaim_label :=
  match r with
  | Some line => ExclaimLine line
  | None => ExclaimEnd
  end.

(** [if line == 'Goodbye!': return], then the next turn of the loop. *)
Definition exclaim_goodbye (line : string)
  : action (value string) string exclaim_label :=
  if String.eqb line "Goodbye!" then Return else Anext exclaim_for.

Definition exclaim_code (l : exclaim_label)
  : action (value string) string exclaim_label :=
  match l with
  | ExclaimEntry => Yield "Hello world!"%string ExclaimFor
  | ExclaimFor => Anext exclaim_for
  | ExclaimLine (VTok line) =>
      if endswith line "!" then Yield (yelled line) (ExclaimYelled line)
      else exclaim_goodbye line
  | ExclaimLine _ => Raise AttributeError
  | ExclaimYelled line => exclaim_goodbye line
  | ExclaimEnd => Return
  end.

Definition exclaim_body : agenfun (value string) string :=
  AGenFun ExclaimEntry exclaim_code.

(** The decorated function. *)
Definition exclaim_async_iterable (budget : nat)
    (arg : iterable string (value string)) : generator string string :=
  syncgenerator budget exclaim_body arg.

(** How [gather_processors] uses a decorated function: its argument is the
    relay, which has [__aiter__]. *)
Definition exclaim_processor (budget : nat)
    (relay : asyncgen string (value string)) : asyncgen string string :=
  call exclaim_body relay budget.

End Exclaim.

(** ** [repr] of a line *)

(** [repr(line)] for a string of code points below 256: in single quotes,
    or in double quotes when the line has a single quote and no double one;
    the quote and the backslash escaped, tab, newline and carriage return as
    [\t], [\n] and [\r], the other characters that are not printable as
    [\xhh]. *)
Definition hex_digit (n : nat) : ascii :=
  nth n (list_ascii_of_string "0123456789abcdef") "0"%char.

(** [c.isprintable()] for a code point below 256. *)
Definition isprintable (c : ascii) : bool :=
  let n := nat_of_ascii c in
  ((32 <=? n) && (n <? 127)) || ((161 <=? n) && negb (n =? 173)).

Definition contains (c : ascii) (s : string) : bool :=
  existsb (Ascii.eqb c) (list_ascii_of_string s).

Definition escape (quote c : ascii) : string :=
  let n := nat_of_ascii c in
  if Ascii.eqb c quote || (n =? 92)
  then String (ascii_of_nat 92) (String c EmptyString)
  else if n =? 9 then String (ascii_of_nat 92) "t"%string
  else if n =? 10 then String (ascii_of_nat 92) "n"%string
  else if n =? 13 then String (ascii_of_nat 92) "r"%string
  else if isprintable c then String c EmptyString
  else String (ascii_of_nat 92)
         (String "x"%char
            (String (hex_digit (n / 16))
               (String (hex_digit (n mod 16)) EmptyString))).

Definition repr (s : string) : string :=
  let quote :=
    if contains "'"%char s && negb (contains (ascii_of_nat 34) s)
    then ascii_of_nat 34 else "'"%char in
  String quote
    (String.concat EmptyString (map (escape quote) (list_ascii_of_string s))
     ++ String quote EmptyString)%string.

(** ['Someone yelled %r' % (line,)] *)
Definition someone_yelled (line : string) : string :=
  ("Someone yelled " ++ repr line)%string.

(** ** [count_passwords_async_iterable] *)

(** [s.split(sep)] for a separator of one character: the parts between the
    separators, the empty ones too. *)
Fixpoint split_on (sep : ascii) (s : string) : list string :=
  match s with
  | EmptyString => [EmptyString]
  | String c s' =>
      if Ascii.eqb c sep then EmptyString :: split_on sep s'
      else
        match split_on sep s' with
        | part :: parts => String c part :: parts
        | [] => [String c EmptyString]
        end
  end.

(** [c.isspace()] for a code point below 256. *)
Definition isspace (c : ascii) : bool :=
  let n := nat_of_ascii c in
  ((9 <=? n) && (n <=? 13)) || ((28 <=? n) && (n <=? 32))
  || (n =? 133) || (n =? 160).

(** [s.split()]: the maximal runs of characters that are not whitespace. *)
Fixpoint words (s : string) : list string :=
  match s with
  | EmptyString => []
  | String c s' =>
      if isspace c then words s'
      else
        match s' with
        | EmptyString => [String c EmptyString]
        | String c' _ =>
            if isspace c' then String c EmptyString :: words s'
            else
              match words s' with
              | w :: ws => String c w :: ws
              | [] => [String c EmptyString]
              end
        end
  end.

(** [l[-1]], [None] for the [IndexError] of an empty list. *)
Definition last_error {A} (l : list A) : option A :=
  match rev l with
  | x :: _ => Some x
  | [] => None
  end.

(** [str(count)] *)
Definition str (count : nat) : string :=
  NilEmpty.string_of_uint (Nat.to_uint count).

(** The labels carry [count]; [CountPassword] is the point after
    [yield 'Username: ...'], where [last.split()[0]] is evaluated. *)
Inductive count_label : Type :=
| CountFor (count : nat)
| CountLine (count : nat) (line : value string)
| CountPassword (count : nat) (last : string)
| CountTotal (count : nat)
| CountNumber (count : nat)
| CountEnd.

Definition count_for (count : nat) (r : option (value string)) : count_label :=
  match r with
  | Some line => CountLine count line
  | None => CountTotal count
  end.

(** [first, last = line.split(':')] raises [ValueError] unless there are two
    parts, and the loop continues; [first.split()[-1]] and [last.split()[0]]
    raise [IndexError] on a part without a word, which nothing catches. *)
Definition count_code (l : count_label)
  : action (value string) string count_label :=
  match l with
  | CountFor count => Anext (count_for count)
  | CountLine count (VTok line) =>
      match split_on ":" line with
      | [first; last] =>
          match last_error (words first) with
          | Some username =>
              Yield ("Username: " ++ username)%string
                (CountPassword count last)
          | None => Raise IndexError
          end
      | _ => Anext (count_for count)
      end
  | CountLine _ _ => Raise AttributeError
  | CountPassword count last =>
      match hd_error (words last) with
      | Some password =>
          Yield ("Password: " ++ password)%string (CountFor (S count))
      | None => Raise IndexError
      end
  | CountTotal count =>
      Yield "Total number of passwords:"%string (CountNumber count)
  | CountNumber count => Yield (str count) CountEnd
  | CountEnd => Return
  end.

Definition count_passwords_body : agenfun (value string) string :=
  AGenFun (CountFor 0) count_code.

(** The decorated function. *)
Definition count_passwords_async_iterable (budget : nat)
    (arg : iterable string (value string)) : generator string string :=
  syncgenerator budget count_passwords_body arg.

(** The decorated function applied to the relay. *)
Definition count_passwords_processor (budget : nat)
    (relay : asyncgen string (value string)) : asyncgen string string :=
  call count_passwords_body relay budget.

(** ** The loop that prints the events *)

(** ["From %s: %s" % (processor_functions[idx].__name__, line)]; [names] are
    the [__name__]s of [processor_functions]. *)
Definition report (names : list string) (ev : nat * string)
  : option string :=
  match nth_error names (fst ev) with
  | Some name => Some ("From " ++ name ++ ": " ++ snd ev)%string
  | None => None
  end.

(** [for idx, line in gather_processors(...): print(...)]: the lines printed,
    and how the loop ends; an index out of range is an [IndexError]. *)
Fixpoint print_events (names : list string) (evs : list (nat * string))
    (e : ending) : list string * ending :=
  match evs with
  | [] => ([], e)
  | ev :: evs' =>
      match report names ev with
      | Some text =>
          let (out, e') := print_events names evs' e in (text :: out, e')
      | None => ([], Aborted IndexError)
      end
  end.

(** ** Auxiliary definitions for the statements *)

(** The rest of a turn of [unwrap_aiter]'s loop, once [o.send(None)] has
    answered [r]. *)
Definition after_send {T A} `{PyValue A} (fuel : nat) (g : asyncgen T A)
    (r : outcome A (frame g)) : list A * ending :=
  match r with
  | StopIteration x fr =>
      if is_none x then ([], Aborted IndexError)
      else let (xs, e) := unwrap_aiter fuel (reparked g fr) in (x :: xs, e)
  | Pending fr => unwrap_aiter fuel (reparked g fr)
  | StopAsyncIteration => ([], Completed)
  | Raises e => ([], Aborted e)
  | Diverges => ([], Unfinished)
  end.

(** What a driver that reads [exn.args[0]] makes of the values [out] a
    generator yields before it ends with [e]: the values before the first
    [None], and at a [None] the [IndexError]. *)
Fixpoint up_to_none {A} `{PyValue A} (out : list A) (e : ending)
  : list A * ending :=
  match out with
  | [] => ([], e)
  | x :: out' =>
      if is_none x then ([], Aborted IndexError)
      else let (xs, e') := up_to_none out' e in (x :: xs, e')
  end.

(** The elements [wrap_aiter] has still to yield. *)
Definition remaining {I} (arg : option (wrap_frame I)) : list I :=
  match arg with
  | None => []
  | Some (WrapCreated xs) => xs
  | Some (WrapYielded xs) => xs
  end.

(** What a consumer observes of an async iterable, one item per [send]. *)
Inductive observed (A : Type) : Type :=
| Suspends
| Element (x : A)
| Ends
| Fails (e : exn).
Arguments Suspends {A}.
Arguments Element {A} x.
Arguments Ends {A}.
Arguments Fails {A} e.

(** A consumer that keeps asking [g] for its next element, under a driver
    that answers every suspension with the next delivered value. *)
Fixpoint consume {T A} (fuel : nat) (g : asyncgen T A) (v : value T)
    (delivered : list (value T)) : list (observed A) :=
  match fuel with
  | 0 => []
  | S fuel' =>
      match send g v with
      | StopIteration x g' => Element x :: consume fuel' g' VNone delivered
      | Pending g' =>
          Suspends ::
          match delivered with
          | [] => []
          | d :: rest => consume fuel' g' d rest
          end
      | StopAsyncIteration => [Ends]
      | Raises e => [Fails e]
      | Diverges => []
      end
  end.

(** The relay in the words of its specification: one suspension per element,
    each delivered value passed on unchanged, the end at the first sentinel,
    which is not passed on. *)
Fixpoint relay_spec {T} (delivered : list (value T))
  : list (observed (value T)) :=
  match delivered with
  | [] => [Suspends]
  | d :: rest =>
      if is_sentinel d then [Suspends; Ends]
      else Suspends :: Element d :: relay_spec rest
  end.

Definition elements {A} (tr : list (observed A)) : list A :=
  flat_map (fun o => match o with Element x => [x] | _ => [] end) tr.

Fixpoint suspensions {A} (tr : list (observed A)) : nat :=
  match tr with
  | [] => 0
  | Suspends :: tr' => S (suspensions tr')
  | _ :: tr' => suspensions tr'
  end.

Fixpoint before_sentinel {T} (delivered : list (value T)) : list (value T) :=
  match delivered with
  | [] => []
  | d :: rest => if is_sentinel d then [] else d :: before_sentinel rest
  end.

(** The parts of a recorded run. *)
Definition steps_of {T O} (r : list (step T O) * list (slot T O) * ending)
  : list (step T O) := fst (fst r).
Definition slots_of {T O} (r : list (step T O) * list (slot T O) * ending)
  : list (slot T O) := snd (fst r).
Definition ending_of {T O} (r : list (step T O) * list (slot T O) * ending)
  : ending := snd r.

(** The key of the ordering: position of the token in the feed, index of the
    processor, rank of the [send] within the delivery. *)
Definition key {T O} (s : step T O) : nat * nat * nat := (pos s, idx s, sub s).

Definition key_lt (a b : nat * nat * nat) : Prop :=
  let '(p1, i1, j1) := a in
  let '(p2, i2, j2) := b in
  p1 < p2 \/ (p1 = p2 /\ (i1 < i2 \/ (i1 = i2 /\ j1 < j2))).

(** [s1] comes before [s2] in a run: a smaller key, and within one delivery
    only a [send] that yielded is followed by another. *)
Definition step_before {T O} (s1 s2 : step T O) : Prop :=
  key_lt (key s1) (key s2)
  /\ (pos s1 = pos s2 -> idx s1 = idx s2 -> exists o, resp s1 = Yielded o).

Definition keyed_event {T O} (s : step T O) : list (nat * nat * nat * O) :=
  match resp s with
  | Yielded o => [(key s, o)]
  | _ => []
  end.

(** The events of a run, each with its key. *)
Definition keyed_events {T O} (l : list (step T O))
  : list (nat * nat * nat * O) :=
  flat_map keyed_event l.

Definition ev_pos {O} (e : nat * nat * nat * O) : nat := fst (fst (fst e)).
Definition ev_idx {O} (e : nat * nat * nat * O) : nat := snd (fst (fst e)).
Definition ev_sub {O} (e : nat * nat * nat * O) : nat := snd (fst e).

(** The event as the source yields it: [(i, exn.args[0])]. *)
Definition unkeyed {O} (e : nat * nat * nat * O) : nat * O :=
  (ev_idx e, snd e).

Definition event_lt {O} (a b : nat * nat * nat * O) : Prop :=
  key_lt (fst a) (fst b).



(** The steps of one turn of the inner loop, as [advance] records them. *)
Inductive burst {T O} (p i : nat)
  : nat -> bool -> value T -> list (step T O) -> advanced T O -> Prop :=
| burst_out j aw v : burst p i j aw v [] Stalled
| burst_yield j aw v o l r :
    burst p i (S j) false VNone l r ->
    burst p i j aw v (Step p i j aw v (Yielded o) :: l) r
| burst_none j aw v :
    burst p i j aw v [Step p i j aw v YieldedNone] (Raised IndexError)
| burst_pending j aw v g :
    burst p i j aw v [Step p i j aw v Suspended] (Parked (Awaiting g))
| burst_stop j aw v :
    burst p i j aw v [Step p i j aw v Stopped] (Parked Finished)
| burst_raise j aw v e :
    burst p i j aw v [Step p i j aw v (Failed e)] (Raised e)
| burst_hang j aw v :
    burst p i j aw v [Step p i j aw v Hung] Stalled.

(** In a record of steps every [send] that yielded is followed by the next
    [send] to the same processor for the same token, which carries [None]
    to a new awaitable; [last] is what holds when such a step is the last
    of the record. *)
Fixpoint drained {T O} (last : Prop) (l : list (step T O)) : Prop :=
  match l with
  | [] => True
  | s :: l' =>
      (forall o, resp s = Yielded o ->
         match l' with
         | [] => last
         | s' :: _ =>
             pos s' = pos s /\ idx s' = idx s /\ sub s' = S (sub s)
             /\ sent s' = VNone /\ in_await s' = false
         end)
      /\ drained last l'
  end.



Definition is_finished {T O} (s : slot T O) : bool :=
  match s with Finished => true | _ => false end.


Definition is_awaiting {T O} (s : slot T O) : bool :=
  match s with Awaiting _ => true | _ => false end.

(** A processor that never lets go:
    [while True: await read_input_line()]. *)
Definition stubborn_send {T O} (started : bool) (v : value T)
  : outcome O bool :=
  match started, v with
  | false, VNone => Pending true
  | false, _ => Raises TypeError
  | true, _ => Pending true
  end.

Definition stubborn {T O} : asyncgen T O := AsyncGen false stubborn_send.

(** A processor that raises when its input ends:
    [async for line in lines: pass] and then [raise Exception(msg)]. *)
Inductive failing_label : Type :=
| FailingFor
| FailingRaise.

Definition failing_body {I O} (msg : string) : agenfun I O :=
  AGenFun FailingFor
    (fun l =>
       match l with
       | FailingFor =>
           Anext (fun r => match r with
                           | Some _ => FailingFor
                           | None => FailingRaise
                           end)
       | FailingRaise => Raise (Exception msg)
       end).

(** A step of the delivery of [v] to processor [i] at position [p]: the
    first [send] carries [v], the later ones, after a [yield], carry [None]
    to a new awaitable. *)
Definition in_delivery {T O} (p i j : nat) (aw : bool) (v : value T)
    (s : step T O) : Prop :=
  pos s = p /\ idx s = i /\ j <= sub s
  /\ (sub s = j -> sent s = v /\ in_await s = aw)
  /\ (sub s <> j -> sent s = VNone /\ in_await s = false).

(** A step of the round for [line] over the slots [gens], the first of which
    has index [i0]: it belongs to the delivery to a slot that is not
    [Finished]. *)
Definition in_round {T O} (p i0 : nat) (line : value T)
    (gens : list (slot T O)) (s : step T O) : Prop :=
  exists k slot,
    nth_error gens k = Some slot /\ is_finished slot = false
    /\ in_delivery p (i0 + k) 0 (is_awaiting slot) line s.

(** The step that ends a run with the exception [x]: a [send] that raised
    [x], or a [send] that came back with a yielded [None], on which
    [exn.args[0]] raises [IndexError]. *)
Definition raised {T O} (s : step T O) (x : exn) : Prop :=
  resp s = Failed x \/ (resp s = YieldedNone /\ x = IndexError).

Definition not_failed {T O} (s : step T O) : Prop :=
  forall x, ~ raised s x.

(** A step of the run over [feed] from position [p0] with the slots [gens]:
    it belongs to the token at its position and to a slot that was not
    [Finished] at the start. *)
Definition in_lines {T O} (p0 : nat) (feed : list (value T))
    (gens : list (slot T O)) (s : step T O) : Prop :=
  exists q line,
    nth_error feed q = Some line /\ pos s = p0 + q
    /\ (sub s = 0 -> sent s = line)
    /\ (sub s <> 0 -> sent s = VNone /\ in_await s = false)
    /\ exists slot, nth_error gens (idx s) = Some slot
                    /\ is_finished slot = false.


(** ** Concrete runs used to instantiate the theorems *)

(** [async def chatter(lines): yield 'a'; yield 'b'; yield 'c'] *)
Definition chatter_body : agenfun (value string) string :=
  AGenFun 0
    (fun l =>
       match l with
       | 0 => Yield "a"%string 1
       | 1 => Yield "b"%string 2
       | 2 => Yield "c"%string 3
       | _ => Return
       end).

(** The [input_lines] of the source. *)
Definition input_lines : list string :=
  ["Hello!"; "First entry is foo:bar"; "Hello again!";
   "And hello:world is the final entry"; "Goodbye!";
   "Nice talking to you!"]%string.

(** [exclaim_async_iterable] next to a processor that never returns. *)
Definition exclaim_and_stubborn
  : list (asyncgen string (value string) -> asyncgen string string) :=
  [exclaim_processor someone_yelled 2; fun _ => stubborn].

(** A processor that raises at the end of its input, before [stubborn]. *)
Definition failing_and_stubborn
  : list (asyncgen string (value string) -> asyncgen string string) :=
  [fun it => call (failing_body "boom") it 1; fun _ => stubborn].

(** [async def echo(items): async for x in items: yield x] *)
Inductive echo_label (I : Type) : Type :=
| EchoFor
| EchoItem (x : I)
| EchoEnd.
Arguments EchoFor {I}.
Arguments EchoItem {I} x.
Arguments EchoEnd {I}.

Definition echo_body {I} : agenfun I I :=
  AGenFun EchoFor
    (fun l =>
       match l with
       | EchoFor =>
           Anext (fun r => match r with
                           | Some x => EchoItem x
                           | None => EchoEnd
                           end)
       | EchoItem x => Yield x EchoFor
       | EchoEnd => Return
       end).


(** A processor that raises at its first line:
    [async for line in lines: raise Exception(msg)]. *)
Inductive rejecting_label : Type :=
| RejectingFor
| RejectingRaise
| RejectingEnd.


(** A processor that emits three events before its first [await], then
    [exclaim_async_iterable]. *)
Definition chatter_and_exclaim
  : list (asyncgen string (value string) -> asyncgen string string) :=
  [fun it => call chatter_body it 1; exclaim_processor someone_yelled 2].

(** The processor that yields every line it reads, on lines that may be
    [None]. *)
Definition echo_processor
  : list (asyncgen (option string) (value (option string))
          -> asyncgen (option string) (value (option string))) :=
  [fun it => call echo_body it 2].


(** ** Auxiliary definitions for the further properties *)

(** What a run over one slot yields once the inner loop has left the
    processor as [r]: the events of that delivery, then those of the rest of
    the feed. *)
Definition solo_rest {T O} `{PyValue O} (fuel p : nat) (feed : list (value T))
    (r : list (step T O) * advanced T O) : list (nat * O) * ending :=
  match r with
  | (l, Parked slot) =>
      let '(l', _, e) := for_lines fuel p feed [slot] in
      (events l ++ events l', e)
  | (l, Raised x) => (events l, Aborted x)
  | (l, Stalled) => (events l, Unfinished)
  end.

(** The step with the index of its processor replaced. *)
Definition with_idx {T O} (i : nat) (s : step T O) : step T O :=
  Step (pos s) i (sub s) (in_await s) (sent s) (resp s).

(** The relay as the body of a processor finds it on a feed: not yet waiting
    while input and sentinel are to come, or returned when nothing is. *)
Definition relay_ahead {T} `{PyValue T} (arg : option relay_frame) (xs : list T)
    (feed : list (value T)) : Prop :=
  (exists a, arg = Some a /\ (a = RelayCreated \/ a = RelayYielded)
             /\ feed = map tok xs ++ [VSentinel])
  \/ (arg = None /\ xs = [] /\ feed = []).

(** What [exclaim_async_iterable] emits after ['Hello world!']: one line for
    each input line that ends in ['!'], up to and with ['Goodbye!']. *)
Fixpoint exclaimed (yelled : string -> string) (lines : list string)
  : list string :=
  match lines with
  | [] => []
  | line :: rest =>
      (if endswith line "!" then [yelled line] else [])
      ++ (if String.eqb line "Goodbye!" then [] else exclaimed yelled rest)
  end.

(** The number of occurrences of a character. *)
Fixpoint occurrences (c : ascii) (s : string) : nat :=
  match s with
  | EmptyString => 0
  | String c' s' => (if Ascii.eqb c' c then 1 else 0) + occurrences c s'
  end.

(** The username and the password of a line: the last word before its one
    colon and the first word after it. *)
Definition credentials (line : string) : option (string * string) :=
  match split_on ":" line with
  | [first; last] =>
      match last_error (words first), hd_error (words last) with
      | Some username, Some password => Some (username, password)
      | _, _ => None
      end
  | _ => None
  end.

Definition entries (line : string) : list string :=
  match credentials line with
  | Some (username, password) =>
      [("Username: " ++ username)%string; ("Password: " ++ password)%string]
  | None => []
  end.

Definition one_colon (line : string) : bool := occurrences ":" line =? 1.

(** A line that has one colon has a word on each side of it. *)
Definition well_formed (line : string) : Prop :=
  one_colon line = true -> credentials line <> None.

(** A word: not empty, without whitespace and without colon. *)
Definition clean (w : string) : Prop :=
  w <> EmptyString
  /\ Forall (fun c => isspace c = false /\ c <> ":"%char)
       (list_ascii_of_string w).

(** The body of [count_passwords_async_iterable] as a recursion over the
    lines. *)
Fixpoint passwords (count : nat) (lines : list string)
  : list string * ending :=
  match lines with
  | [] => (["Total number of passwords:"%string; str count], Completed)
  | line :: rest =>
      match split_on ":" line with
      | [first; last] =>
          match last_error (words first) with
          | None => ([], Aborted IndexError)
          | Some username =>
              match hd_error (words last) with
              | None =>
                  ([("Username: " ++ username)%string], Aborted IndexError)
              | Some password =>
                  let (out, e) := passwords (S count) rest in
                  (("Username: " ++ username)%string
                   :: ("Password: " ++ password)%string :: out, e)
              end
          end
      | _ => passwords count rest
      end
  end.

(** The [processor_functions] of the source and their [__name__]s. *)
Definition processor_functions (budget : nat)
  : list (asyncgen string (value string) -> asyncgen string string) :=
  [count_passwords_processor budget; exclaim_processor someone_yelled budget].

Definition processor_names : list string :=
  ["count_passwords_async_iterable"; "exclaim_async_iterable"]%string.

(** * Theorems *)

Section RoundTrip.
Context {T A : Type} {HA : PyValue A}.

Lemma unwrap_wrap_yielded (rest : list A) (k : nat) :
  unwrap_aiter (S (length rest + k))
    (AsyncGen (WrapYielded rest) (@wrap_send T A))
  = up_to_none rest Completed.
Proof.
  induction rest as [|x rest IH].
  - reflexivity.
  - change (unwrap_aiter (S (length (x :: rest) + k)) _)
      with (if is_none x then ([], Aborted IndexError)
            else let (xs, e) :=
                   unwrap_aiter (S (length rest + k))
                     (AsyncGen (WrapYielded rest) (@wrap_send T A))
                 in (x :: xs, e)).
    now rewrite IH.
Qed.

Lemma unwrap_wrap_created (xs : list A) (fuel : nat) :
  unwrap_aiter fuel (@wrap_aiter T A xs)
  = unwrap_aiter fuel (AsyncGen (WrapYielded xs) (@wrap_send T A)).
Proof. destruct fuel; reflexivity. Qed.

Lemma up_to_none_all (xs : list A) (e : ending) :
  Forall (fun x => is_none x = false) xs -> up_to_none xs e = (xs, e).
Proof.
  induction 1 as [|x xs Hx _ IH]; [reflexivity|].
  cbn [up_to_none]. now rewrite Hx, IH.
Qed.

Lemma unwrap_wrap_partial (rest : list A) (fuel : nat) :
  exists m,
    fst (unwrap_aiter fuel (AsyncGen (WrapYielded rest) (@wrap_send T A)))
    = firstn m rest.
Proof.
  revert rest; induction fuel as [|fuel IH]; intros rest.
  - exists 0. reflexivity.
  - destruct rest as [|x rest]; [exists 0; reflexivity|].
    change (unwrap_aiter (S fuel) _)
      with (if is_none x then ([], Aborted IndexError)
            else let (xs, e) :=
                   unwrap_aiter fuel
                     (AsyncGen (WrapYielded rest) (@wrap_send T A))
                 in (x :: xs, e)).
    destruct (is_none x); [exists 0; reflexivity|].
    destruct (IH rest) as (m & Hm). exists (S m).
    destruct (unwrap_aiter fuel _) as [ys e]; simpl in *; now subst.
Qed.

(** X1: the round trip of the two bridges, as the code has it.
    [unwrap_aiter(wrap_aiter(xs))] yields the elements of [xs] before the
    first [None], in order, nothing added, dropped or repeated; it ends
    there with [IndexError], and completes when no element is [None]: then
    the result is [xs].  With any fuel the elements produced so far are
    first elements of [xs]. *)
Theorem unwrap_wrap_aiter (xs : list A) :
  (forall k,
      unwrap_aiter (S (length xs + k)) (@wrap_aiter T A xs)
      = up_to_none xs Completed)
  /\ (Forall (fun x => is_none x = false) xs ->
      forall k,
        unwrap_aiter (S (length xs + k)) (@wrap_aiter T A xs)
        = (xs, Completed))
  /\ (forall fuel, exists m,
        fst (unwrap_aiter fuel (@wrap_aiter T A xs)) = firstn m xs).
Proof.
  split; [|split].
  - intros k. rewrite unwrap_wrap_created. apply unwrap_wrap_yielded.
  - intros Hxs k. rewrite unwrap_wrap_created, unwrap_wrap_yielded.
    now apply up_to_none_all.
  - intros fuel. rewrite unwrap_wrap_created. apply unwrap_wrap_partial.
Qed.

End RoundTrip.

(** C10 fails on the code for an iterable that holds [None]: the round trip
    of [['a', None, 'b']] returns ['a'] and then raises [IndexError], at
    [exn.args[0]] of the [StopIteration] without arguments that carries the
    yielded [None]. *)
Theorem unwrap_wrap_aiter_none :
  unwrap_aiter 4
    (wrap_aiter (T:=string) [Some "a"; None; Some "b"]%string)
  = ([Some "a"%string], Aborted IndexError)
  /\ forall fuel,
       fst (unwrap_aiter fuel
              (wrap_aiter (T:=string) [Some "a"; None; Some "b"]%string))
       <> [Some "a"; None; Some "b"]%string.
Proof.
  split; [reflexivity|].
  intros [|[|[|fuel]]]; discriminate.
Qed.

Lemma unwrap_aiter_S {T A} {HA : PyValue A} (fuel : nat) (g : asyncgen T A) :
  unwrap_aiter (S fuel) g = after_send fuel g (gen_send g (parked g) VNone).
Proof.
  simpl. unfold send, after_send.
  destruct (gen_send g (parked g) VNone); reflexivity.
Qed.

Lemma after_send_yield {T A} {HA : PyValue A} (fuel : nat) (g : asyncgen T A)
    x fr :
  after_send (S fuel) g (StopIteration x fr)
  = if is_none x then ([], Aborted IndexError)
    else let (xs, e) := after_send fuel g (gen_send g fr VNone) in
         (x :: xs, e).
Proof.
  unfold after_send at 1. rewrite unwrap_aiter_S. reflexivity.
Qed.

Section Bridging.
Context {T I O : Type} {HO : PyValue O}.
Context (f : agenfun I O) (xs0 : list I) (budget : nat).

Let it : asyncgen T I := wrap_aiter xs0.
Let g : asyncgen T O := call f it budget.

(** One action of the body over [wrap_aiter], next to the same action of
    the direct execution. *)
Lemma run_wrap_S (b : nat) (s : label f) (arg : option (wrap_frame I)) :
  run f it (S b) s arg
  = match code f s with
    | Yield o s' => StopIteration o (CallYielded s' arg)
    | Anext k =>
        match remaining arg with
        | [] => run f it b (k None) None
        | x :: rest => run f it b (k (Some x)) (Some (WrapYielded rest))
        end
    | Return => StopAsyncIteration
    | Raise e => Raises e
    end.
Proof.
  simpl. destruct (code f s); try reflexivity.
  destruct arg as [[[|x xs]|[|x xs]]|]; reflexivity.
Qed.

(** Whatever the adapted generator produces with some fuel, the direct
    execution produces with some fuel, up to the first [None]. *)
Lemma bridged_in_direct (fuel : nat) :
  forall b s arg,
  exists n, after_send fuel g (run f it b s arg)
            = up_to_none (fst (run_direct f n s (remaining arg)))
                (snd (run_direct f n s (remaining arg))).
Proof.
  induction fuel as [|fuel IHfuel];
    (induction b as [|b IHb]; intros s arg; [exists 0; reflexivity|]);
    rewrite run_wrap_S;
    destruct (code f s) as [o s'|k| |e] eqn:Hc;
    try (exists 1; simpl; rewrite Hc; reflexivity).
  - destruct (remaining arg) as [|x rest] eqn:Hr;
      match goal with
      | |- context [run f it b ?s' ?arg'] =>
          destruct (IHb s' arg') as [n Hn]; exists (S n);
          cbn [run_direct]; rewrite Hc; exact Hn
      end.
  - destruct (IHfuel budget s' arg) as [n Hn]. exists (S n).
    rewrite after_send_yield. simpl run_direct. rewrite Hc.
    destruct (run_direct f n s' (remaining arg)) as [os e'].
    cbn [fst snd up_to_none] in *. rewrite <- Hn. reflexivity.
  - destruct (remaining arg) as [|x rest] eqn:Hr;
      match goal with
      | |- context [run f it b ?s' ?arg'] =>
          destruct (IHb s' arg') as [n Hn]; exists (S n);
          cbn [run_direct]; rewrite Hc; exact Hn
      end.
Qed.

(** A direct execution that ends is reproduced by the adapted generator, up
    to the first [None], as soon as fuel and budget cover its length. *)
Lemma direct_in_bridged (n : nat) :
  forall s arg out e,
    run_direct f n s (remaining arg) = (out, e) ->
    e <> Unfinished ->
    forall fuel b, n <= fuel -> n <= b -> b <= budget ->
    after_send fuel g (run f it b s arg) = up_to_none out e.
Proof.
  induction n as [|n IH]; intros s arg out e Hd He fuel b Hfuel Hb Hbudget.
  - simpl in Hd. inversion Hd; subst. congruence.
  - destruct b as [|b]; [lia|]. destruct fuel as [|fuel]; [lia|].
    rewrite run_wrap_S. simpl in Hd.
    destruct (code f s) as [o s'|k| |e0].
    + destruct (run_direct f n s' (remaining arg)) as [os e'] eqn:Hd'.
      inversion Hd; subst.
      rewrite after_send_yield. cbn [up_to_none].
      change (gen_send g (CallYielded s' arg) VNone)
        with (run f it budget s' arg).
      rewrite (IH s' arg os e Hd' He fuel budget); [reflexivity|lia..].
    + destruct (remaining arg) as [|x rest] eqn:Hr;
        (eapply IH; [cbn [remaining]; exact Hd|assumption|lia..]).
    + inversion Hd; subst. reflexivity.
    + inversion Hd; subst. reflexivity.
Qed.

(** X13: on a plain sequence the adapted call [syncgenerator(body)(xs)],
    that is [unwrap_aiter(body(wrap_aiter(xs)))], produces the output of the
    direct synchronous execution of the body over [xs], element for element
    and with the same end (completion or the same exception), up to the
    first output that is [None], where it ends with [IndexError]: every
    result of the adapted call is such a result of the direct execution,
    and every direct execution that ends gives the result of the adapted
    call once fuel and budget cover it; when no output is [None] the two
    agree. *)
Theorem syncgenerator_plain_is_direct :
  (forall fuel, exists n,
      iterate fuel (syncgenerator (T:=T) budget f (PlainIterable xs0))
      = up_to_none (fst (run_direct f n (entry f) xs0))
          (snd (run_direct f n (entry f) xs0)))
  /\ (forall n out e,
      run_direct f n (entry f) xs0 = (out, e) ->
      e <> Unfinished ->
      n <= budget ->
      forall fuel, n < fuel ->
      iterate fuel (syncgenerator (T:=T) budget f (PlainIterable xs0))
      = up_to_none out e
      /\ (Forall (fun o => is_none o = false) out ->
          iterate fuel (syncgenerator (T:=T) budget f (PlainIterable xs0))
          = (out, e))).
Proof.
  split.
  - intros [|fuel]; [exists 0; reflexivity|].
    destruct (bridged_in_direct fuel budget (entry f) (Some (WrapCreated xs0)))
      as [n Hn].
    exists n. cbn [remaining] in Hn. rewrite <- Hn.
    change (iterate (S fuel) _) with (unwrap_aiter (S fuel) g).
    rewrite unwrap_aiter_S. reflexivity.
  - intros n out e Hd He Hb [|fuel] Hfuel; [lia|].
    assert (H : iterate (S fuel)
                  (syncgenerator (T:=T) budget f (PlainIterable xs0))
                = up_to_none out e).
    { change (iterate (S fuel) _) with (unwrap_aiter (S fuel) g).
      rewrite unwrap_aiter_S.
      apply (direct_in_bridged n (entry f) (Some (WrapCreated xs0)) out e
               Hd He); lia. }
    split; [exact H|].
    intros Hout. rewrite H. now apply up_to_none_all.
Qed.

End Bridging.

(** C1 fails on the code for a body that yields [None]: over
    [['a', None, 'b']] the body that yields every item yields the three
    items when it is executed directly, and the adapted call returns ['a']
    and then raises [IndexError]. *)
Theorem syncgenerator_plain_none :
  run_direct echo_body 8 (entry echo_body)
    [Some "a"; None; Some "b"]%string
  = ([Some "a"; None; Some "b"]%string, Completed)
  /\ iterate 9
       (syncgenerator (T:=string) 8 echo_body
          (PlainIterable [Some "a"; None; Some "b"]%string))
     = ([Some "a"%string], Aborted IndexError).
Proof. split; reflexivity. Qed.

(** * The scheduler: structure of a recorded run *)

Lemma StronglySorted_app {A} (R : A -> A -> Prop) (l1 l2 : list A) :
  StronglySorted R l1 -> StronglySorted R l2 ->
  (forall a b, In a l1 -> In b l2 -> R a b) ->
  StronglySorted R (l1 ++ l2).
Proof.
  induction l1 as [|x l1 IH]; intros H1 H2 H12; simpl; [assumption|].
  inversion H1; subst. constructor.
  - apply IH; auto. intros; apply H12; simpl; auto.
  - apply Forall_app; split; [assumption|].
    apply Forall_forall. intros b Hb. apply H12; simpl; auto.
Qed.

Lemma StronglySorted_nth {A} (R : A -> A -> Prop) (l : list A) :
  StronglySorted R l ->
  forall a b x y, a < b -> nth_error l a = Some x -> nth_error l b = Some y ->
  R x y.
Proof.
  induction 1 as [|h l Hs IH Hh]; intros a b x y Hab Ha Hb.
  - destruct a; discriminate.
  - destruct b as [|b]; [lia|]. simpl in Hb.
    destruct a as [|a]; simpl in Ha.
    + inversion Ha; subst. rewrite Forall_forall in Hh.
      apply Hh. eapply nth_error_In; eauto.
    + apply (IH a b x y); [lia|assumption|assumption].
Qed.

Lemma StronglySorted_split {A} (R : A -> A -> Prop) (l1 l2 : list A) x :
  StronglySorted R (l1 ++ x :: l2) -> Forall (R x) l2.
Proof.
  induction l1 as [|h l1 IH]; simpl; intros H; inversion H; subst; auto.
Qed.

Section SchedulerFacts.
Context {T O : Type} {HT : PyValue T} {HO : PyValue O}.
Implicit Types (l : list (step T O)) (gens : list (slot T O)).
Implicit Types (s : step T O) (g : asyncgen T O) (line v : value T).

(** ** One delivery *)

Lemma advance_burst fuel : forall p i j aw g v l r,
  advance fuel p i j aw g v = (l, r) -> burst p i j aw v l r.
Proof.
  induction fuel as [|fuel IH]; intros p i j aw g v l r H; simpl in H.
  - inversion H; subst. constructor.
  - destruct (send g v) as [o g'|g'| |e|].
    + destruct (is_none o); [inversion H; subst; constructor|].
      destruct (advance fuel p i (S j) false g' VNone) as [l' r'] eqn:Ha.
      inversion H; subst. constructor. eapply IH; eauto.
    + inversion H; subst. constructor.
    + inversion H; subst. constructor.
    + inversion H; subst. constructor.
    + inversion H; subst. constructor.
Qed.

Lemma in_delivery_later p i j aw v s :
  in_delivery p i (S j) false VNone s -> in_delivery p i j aw v s.
Proof.
  intros (Hp & Hi & Hj & H1 & H2).
  split; [assumption|]. split; [assumption|]. split; [lia|]. split.
  - intros E; lia.
  - intros _. destruct (Nat.eq_dec (sub s) (S j)) as [E|E];
      [apply H1 in E|apply H2 in E]; tauto.
Qed.

Lemma in_delivery_first p i j aw v r :
  in_delivery p i j aw v (Step p i j aw v r : step T O).
Proof.
  unfold in_delivery; simpl.
  split; [auto|]. split; [auto|]. split; [auto|]. split; [auto|].
  intros E; contradiction.
Qed.

Lemma burst_steps p i j aw v l r :
  burst p i j aw v l r -> Forall (in_delivery p i j aw v) l.
Proof.
  induction 1;
    try (constructor; [apply in_delivery_first|]); try constructor.
  eapply Forall_impl; [|eassumption].
  intros s. apply in_delivery_later.
Qed.

Lemma burst_sorted p i j aw v l r :
  burst p i j aw v l r -> StronglySorted step_before l.
Proof.
  induction 1; try (constructor; constructor); [].
  constructor; [assumption|].
  apply burst_steps in H.
  eapply Forall_impl; [|eassumption].
  intros s (Hp & Hi & Hj & _). split.
  - unfold key_lt, key; simpl. right. split; [auto|]. right. split; [auto|lia].
  - simpl. eauto.
Qed.




(** ** One round over the processors *)

Lemma for_processors_cons_inv fuel p i line slot rest l gens' e :
  for_processors fuel p i line (slot :: rest) = (l, gens', e) ->
  (slot = Finished
   /\ exists rest', for_processors fuel p (S i) line rest = (l, rest', e)
                    /\ gens' = Finished :: rest')
  \/ (exists g l1 r,
         (slot = Fresh g \/ slot = Awaiting g)
         /\ advance fuel p i 0 (is_awaiting slot) g line = (l1, r)
         /\ match r with
            | Parked slot' =>
                exists l2 rest',
                  for_processors fuel p (S i) line rest = (l2, rest', e)
                  /\ l = l1 ++ l2 /\ gens' = slot' :: rest'
            | Raised x => l = l1 /\ gens' = slot :: rest /\ e = Aborted x
            | Stalled => l = l1 /\ gens' = slot :: rest /\ e = Unfinished
            end).
Proof.
  intros H. destruct slot as [g|g|]; simpl in H.
  - right. destruct (advance fuel p i 0 false g line) as [l1 r] eqn:Ha.
    exists g, l1, r. split; [auto|]. split; [exact Ha|].
    destruct r as [slot'|x|].
    + destruct (for_processors fuel p (S i) line rest) as [[l2 rest'] e2].
      inversion H; subst. eauto.
    + inversion H; subst. auto.
    + inversion H; subst. auto.
  - right. destruct (advance fuel p i 0 true g line) as [l1 r] eqn:Ha.
    exists g, l1, r. split; [auto|]. split; [exact Ha|].
    destruct r as [slot'|x|].
    + destruct (for_processors fuel p (S i) line rest) as [[l2 rest'] e2].
      inversion H; subst. eauto.
    + inversion H; subst. auto.
    + inversion H; subst. auto.
  - left. split; [reflexivity|].
    destruct (for_processors fuel p (S i) line rest) as [[l2 rest'] e2].
    inversion H; subst. eauto.
Qed.

Lemma in_round_here p i0 line slot rest s :
  is_finished slot = false ->
  in_delivery p i0 0 (is_awaiting slot) line s ->
  in_round p i0 line (slot :: rest) s.
Proof.
  intros Hf Hd. exists 0, slot. rewrite Nat.add_0_r. auto.
Qed.

Lemma in_round_there p i0 line slot rest s :
  in_round p (S i0) line rest s -> in_round p i0 line (slot :: rest) s.
Proof.
  intros (k & sl & Hk & Hf & Hd). exists (S k), sl.
  replace (i0 + S k) with (S i0 + k) by lia. auto.
Qed.

Lemma not_finished_cases slot g :
  slot = Fresh g \/ slot = Awaiting g -> is_finished slot = false.
Proof. intros [->| ->]; reflexivity. Qed.

Lemma for_processors_steps fuel p line gens : forall i0 l gens' e,
  for_processors fuel p i0 line gens = (l, gens', e) ->
  Forall (in_round p i0 line gens) l.
Proof.
  induction gens as [|slot rest IH]; intros i0 l gens' e H.
  - inversion H; subst. constructor.
  - apply for_processors_cons_inv in H.
    destruct H as [(-> & rest' & Hr & ->)|(g & l1 & r & Hg & Ha & Hr)].
    + eapply Forall_impl; [|eapply IH; eauto].
      intros s. apply in_round_there.
    + apply not_finished_cases in Hg.
      apply advance_burst, burst_steps in Ha.
      assert (H1 : Forall (in_round p i0 line (slot :: rest)) l1).
      { eapply Forall_impl; [|exact Ha].
        intros s. now apply in_round_here. }
      destruct r as [slot'|x|].
      * destruct Hr as (l2 & rest' & Hr & -> & ->).
        apply Forall_app; split; [assumption|].
        eapply Forall_impl; [|eapply IH; eauto].
        intros s. apply in_round_there.
      * destruct Hr as (-> & _); assumption.
      * destruct Hr as (-> & _); assumption.
Qed.

Lemma in_round_pos p i0 line gens s :
  in_round p i0 line gens s -> pos s = p /\ i0 <= idx s < i0 + length gens.
Proof.
  intros (k & sl & Hk & _ & Hp & Hi & _). split; [assumption|].
  assert (k < length gens) by (apply nth_error_Some; congruence). lia.
Qed.

Lemma for_processors_sorted fuel p line gens : forall i0 l gens' e,
  for_processors fuel p i0 line gens = (l, gens', e) ->
  StronglySorted step_before l.
Proof.
  induction gens as [|slot rest IH]; intros i0 l gens' e H.
  - inversion H; subst. constructor.
  - apply for_processors_cons_inv in H.
    destruct H as [(-> & rest' & Hr & ->)|(g & l1 & r & Hg & Ha & Hr)].
    + eauto.
    + apply advance_burst in Ha.
      pose proof (burst_sorted _ _ _ _ _ _ _ Ha) as Hs1.
      pose proof (burst_steps _ _ _ _ _ _ _ Ha) as Hd1.
      destruct r as [slot'|x|].
      * destruct Hr as (l2 & rest' & Hr & -> & ->).
        apply StronglySorted_app; eauto.
        intros a b Hin1 Hin2.
        rewrite Forall_forall in Hd1. apply Hd1 in Hin1.
        apply for_processors_steps in Hr. rewrite Forall_forall in Hr.
        apply Hr, in_round_pos in Hin2.
        destruct Hin1 as (Hp & Hi & _). destruct Hin2 as (Hp' & Hi').
        split.
        -- unfold key_lt, key. right. split; [congruence|]. left. lia.
        -- intros _ Hidx. lia.
      * destruct Hr as (-> & _); assumption.
      * destruct Hr as (-> & _); assumption.
Qed.

Lemma for_processors_length fuel p line gens : forall i0 l gens' e,
  for_processors fuel p i0 line gens = (l, gens', e) ->
  length gens' = length gens.
Proof.
  induction gens as [|slot rest IH]; intros i0 l gens' e H.
  - inversion H; subst. reflexivity.
  - apply for_processors_cons_inv in H.
    destruct H as [(-> & rest' & Hr & ->)|(g & l1 & r & Hg & Ha & Hr)].
    + simpl. f_equal. eauto.
    + destruct r as [slot'|x|].
      * destruct Hr as (l2 & rest' & Hr & -> & ->). simpl. f_equal. eauto.
      * destruct Hr as (_ & -> & _). reflexivity.
      * destruct Hr as (_ & -> & _). reflexivity.
Qed.

(** [if gens[i] is None: continue] *)
Lemma for_processors_finished fuel p line gens : forall i0 l gens' e k,
  for_processors fuel p i0 line gens = (l, gens', e) ->
  nth_error gens k = Some Finished ->
  nth_error gens' k = Some Finished.
Proof.
  induction gens as [|slot rest IH]; intros i0 l gens' e k H Hk.
  - destruct k; discriminate.
  - apply for_processors_cons_inv in H.
    destruct H as [(-> & rest' & Hr & ->)|(g & l1 & r & Hg & Ha & Hr)].
    + destruct k as [|k]; simpl in *; eauto.
    + destruct r as [slot'|x|].
      * destruct Hr as (l2 & rest' & Hr & -> & ->).
        destruct k as [|k]; simpl in *; eauto.
        inversion Hk; subst. destruct Hg; discriminate.
      * destruct Hr as (_ & -> & _). assumption.
      * destruct Hr as (_ & -> & _). assumption.
Qed.




(** An exception ends the delivery, the round and the run: a step that
    failed is the last one recorded. *)
Lemma burst_failing p i j aw v l r :
  burst p i j aw v l r ->
  match r with
  | Raised x =>
      exists l' s, l = l' ++ [s] /\ raised s x /\ Forall not_failed l'
  | _ => Forall not_failed l
  end.
Proof.
  induction 1.
  - constructor.
  - assert (Hy : not_failed (Step p i j aw v (Yielded o) : step T O))
      by (intros x [Hx|[Hx _]]; discriminate Hx).
    destruct r as [slot|x|]; try (constructor; assumption).
    destruct IHburst as (l' & s & -> & Hs & Hl').
    exists (Step p i j aw v (Yielded o) :: l'), s. auto.
  - exists [], (Step p i j aw v YieldedNone).
    split; [reflexivity|]. split; [right; auto|constructor].
  - repeat constructor. intros x [Hx|[Hx _]]; discriminate Hx.
  - repeat constructor. intros x [Hx|[Hx _]]; discriminate Hx.
  - exists [], (Step p i j aw v (Failed e)).
    split; [reflexivity|]. split; [left; reflexivity|constructor].
  - repeat constructor. intros x [Hx|[Hx _]]; discriminate Hx.
Qed.

Lemma for_processors_failing fuel p line gens : forall i0 l gens' e,
  for_processors fuel p i0 line gens = (l, gens', e) ->
  match e with
  | Aborted x =>
      exists l' s, l = l' ++ [s] /\ raised s x /\ Forall not_failed l'
  | _ => Forall not_failed l
  end.
Proof.
  induction gens as [|slot rest IH]; intros i0 l gens' e H.
  - inversion H; subst. constructor.
  - apply for_processors_cons_inv in H.
    destruct H as [(-> & rest' & Hr & ->)|(g & l1 & r & Hg & Ha & Hr)].
    + exact (IH _ _ _ _ Hr).
    + apply advance_burst, burst_failing in Ha.
      destruct r as [slot'|x|].
      * destruct Hr as (l2 & rest' & Hr & -> & ->).
        apply IH in Hr. destruct e as [|x|].
        -- apply Forall_app; auto.
        -- destruct Hr as (l' & s & -> & Hs & Hl').
           exists (l1 ++ l'), s. rewrite app_assoc.
           split; [reflexivity|]. split; [assumption|].
           apply Forall_app; auto.
        -- apply Forall_app; auto.
      * destruct Hr as (-> & _ & ->). assumption.
      * destruct Hr as (-> & _ & ->). assumption.
Qed.

(** ** Deliveries of one round *)








(** A slot that is not [Finished] after a round was not before. *)
Lemma for_processors_live_before fuel p line gens :
  forall i0 l gens' e k slot',
  for_processors fuel p i0 line gens = (l, gens', e) ->
  nth_error gens' k = Some slot' -> is_finished slot' = false ->
  exists slot, nth_error gens k = Some slot /\ is_finished slot = false.
Proof.
  intros i0 l gens' e k slot' H Hk Hf.
  pose proof (for_processors_length _ _ _ _ _ _ _ _ H) as Hlen.
  assert (Hlt : k < length gens)
    by (rewrite <- Hlen; apply nth_error_Some; congruence).
  apply nth_error_Some in Hlt.
  destruct (nth_error gens k) as [slot|] eqn:E; [|congruence].
  exists slot. split; [reflexivity|].
  destruct slot; try reflexivity.
  rewrite (for_processors_finished _ _ _ _ _ _ _ _ _ H E) in Hk.
  inversion Hk; subst. discriminate.
Qed.

(** ** The run over the feed *)

Lemma for_lines_cons_inv fuel p line feed gens l gens' e :
  for_lines fuel p (line :: feed) gens = (l, gens', e) ->
  exists l1 gens1 e1,
    for_processors fuel p 0 line gens = (l1, gens1, e1)
    /\ ((e1 = Completed
         /\ exists l2, for_lines fuel (S p) feed gens1 = (l2, gens', e)
                       /\ l = l1 ++ l2)
        \/ (e1 <> Completed /\ l = l1 /\ gens' = gens1 /\ e = e1)).
Proof.
  simpl. destruct (for_processors fuel p 0 line gens) as [[l1 gens1] e1].
  intros H. exists l1, gens1, e1. split; [reflexivity|].
  destruct e1 as [|x|].
  - left. split; [reflexivity|].
    destruct (for_lines fuel (S p) feed gens1) as [[l2 gens2] e2].
    inversion H; subst. eauto.
  - right. inversion H; subst. repeat split; congruence.
  - right. inversion H; subst. repeat split; congruence.
Qed.

Lemma in_lines_here p0 line feed gens s :
  in_round p0 0 line gens s -> in_lines p0 (line :: feed) gens s.
Proof.
  intros (k & slot & Hk & Hf & Hp & Hi & _ & H0 & H1).
  exists 0, line. simpl in Hi. subst k.
  split; [reflexivity|]. split; [lia|].
  split; [intros E; now apply H0|]. split; [assumption|]. eauto.
Qed.

Lemma in_lines_there fuel p0 line feed gens l1 gens1 e1 s :
  for_processors fuel p0 0 line gens = (l1, gens1, e1) ->
  in_lines (S p0) feed gens1 s -> in_lines p0 (line :: feed) gens s.
Proof.
  intros Hr (q & ln & Hq & Hp & H0 & H1 & slot' & Hk & Hf).
  exists (S q), ln. split; [assumption|]. split; [lia|].
  split; [assumption|]. split; [assumption|].
  eapply for_processors_live_before; eauto.
Qed.

Lemma for_lines_steps fuel feed : forall p0 gens l gens' e,
  for_lines fuel p0 feed gens = (l, gens', e) ->
  Forall (in_lines p0 feed gens) l.
Proof.
  induction feed as [|line feed IH]; intros p0 gens l gens' e H.
  - inversion H; subst. constructor.
  - apply for_lines_cons_inv in H.
    destruct H as (l1 & gens1 & e1 & Hr & H).
    assert (H1 : Forall (in_lines p0 (line :: feed) gens) l1).
    { eapply Forall_impl; [|eapply for_processors_steps; eauto].
      intros s. apply in_lines_here. }
    destruct H as [(-> & l2 & Hl & ->)|(_ & -> & _)]; [|assumption].
    apply Forall_app; split; [assumption|].
    eapply Forall_impl; [|eapply IH; eauto].
    intros s. eapply in_lines_there; eauto.
Qed.

Lemma in_lines_pos p0 feed gens s :
  in_lines p0 feed gens s ->
  p0 <= pos s < p0 + length feed /\ idx s < length gens.
Proof.
  intros (q & line & Hq & Hp & _ & _ & slot & Hk & _).
  assert (q < length feed) by (apply nth_error_Some; congruence).
  assert (idx s < length gens) by (apply nth_error_Some; congruence).
  lia.
Qed.

Lemma for_lines_sorted fuel feed : forall p0 gens l gens' e,
  for_lines fuel p0 feed gens = (l, gens', e) ->
  StronglySorted step_before l.
Proof.
  induction feed as [|line feed IH]; intros p0 gens l gens' e H.
  - inversion H; subst. constructor.
  - apply for_lines_cons_inv in H.
    destruct H as (l1 & gens1 & e1 & Hr & H).
    pose proof (for_processors_sorted _ _ _ _ _ _ _ _ Hr) as Hs1.
    destruct H as [(-> & l2 & Hl & ->)|(_ & -> & _)]; [|assumption].
    apply StronglySorted_app; eauto.
    intros a b Ha Hb.
    apply for_processors_steps in Hr. rewrite Forall_forall in Hr.
    apply Hr, in_round_pos in Ha.
    apply for_lines_steps in Hl. rewrite Forall_forall in Hl.
    apply Hl, in_lines_pos in Hb.
    split.
    + unfold key_lt, key. left. lia.
    + intros Hp. lia.
Qed.

Lemma for_lines_failing fuel feed : forall p0 gens l gens' e,
  for_lines fuel p0 feed gens = (l, gens', e) ->
  match e with
  | Aborted x =>
      exists l' s, l = l' ++ [s] /\ raised s x /\ Forall not_failed l'
  | _ => Forall not_failed l
  end.
Proof.
  induction feed as [|line feed IH]; intros p0 gens l gens' e H.
  - inversion H; subst. constructor.
  - apply for_lines_cons_inv in H.
    destruct H as (l1 & gens1 & e1 & Hr & H).
    apply for_processors_failing in Hr.
    destruct H as [(-> & l2 & Hl & ->)|(_ & -> & _ & ->)]; [|assumption].
    apply IH in Hl. destruct e as [|x|].
    + apply Forall_app; auto.
    + destruct Hl as (l' & s & -> & Hs & Hl').
      exists (l1 ++ l'), s. rewrite app_assoc.
      split; [reflexivity|]. split; [assumption|].
      apply Forall_app; auto.
    + apply Forall_app; auto.
Qed.







(** ** Ranks within a delivery *)

(** The ranks of a delivery have no gap, and every [send] below a recorded
    one yielded: the rank of an event is the number of events the processor
    emitted before it for the same token. *)
Lemma burst_ranks p i j aw v l r :
  burst p i j aw v l r ->
  forall s, In s l -> forall j', j <= j' < sub s ->
  exists s', In s' l /\ pos s' = p /\ idx s' = i /\ sub s' = j'
             /\ exists o, resp s' = Yielded o.
Proof.
  induction 1; intros s Hin j' Hj; simpl in Hin;
    try (destruct Hin as [<-|[]]; simpl in Hj; lia); [contradiction|].
  destruct Hin as [<-|Hin]; [simpl in Hj; lia|].
  destruct (Nat.eq_dec j' j) as [->|Hne].
  - exists (Step p i j aw v (Yielded o)). simpl. eauto 8.
  - destruct (IHburst s Hin j') as (s' & Hin' & Hs'); [lia|].
    exists s'. simpl. auto.
Qed.

Lemma for_processors_ranks fuel p line gens : forall i0 l gens' e,
  for_processors fuel p i0 line gens = (l, gens', e) ->
  forall s, In s l -> forall j', j' < sub s ->
  exists s', In s' l /\ pos s' = pos s /\ idx s' = idx s /\ sub s' = j'
             /\ exists o, resp s' = Yielded o.
Proof.
  induction gens as [|slot rest IH]; intros i0 l gens' e H s Hin j' Hj.
  - inversion H; subst. contradiction.
  - apply for_processors_cons_inv in H.
    destruct H as [(-> & rest' & Hr & ->)|(g & l1 & r & Hg & Ha & Hr)].
    + eapply IH; eauto.
    + apply advance_burst in Ha.
      assert (H1 : In s l1 ->
                   exists s', In s' l1 /\ pos s' = pos s /\ idx s' = idx s
                              /\ sub s' = j' /\ exists o, resp s' = Yielded o).
      { intros Hin1.
        pose proof (burst_steps _ _ _ _ _ _ _ Ha) as Hd.
        rewrite Forall_forall in Hd. destruct (Hd s Hin1) as (Hp & Hi & _).
        destruct (burst_ranks _ _ _ _ _ _ _ Ha s Hin1 j') as (s' & Hs');
          [lia|].
        exists s'. rewrite Hp, Hi. exact Hs'. }
      destruct r as [slot'|x|].
      * destruct Hr as (l2 & rest' & Hr & -> & ->).
        apply in_app_or in Hin. destruct Hin as [Hin|Hin].
        -- destruct (H1 Hin) as (s' & Hin' & Hs').
           exists s'. split; [apply in_or_app; auto|exact Hs'].
        -- destruct (IH _ _ _ _ Hr s Hin j' Hj) as (s' & Hin' & Hs').
           exists s'. split; [apply in_or_app; auto|exact Hs'].
      * destruct Hr as (-> & _). auto.
      * destruct Hr as (-> & _). auto.
Qed.

Lemma for_lines_ranks fuel feed : forall p0 gens l gens' e,
  for_lines fuel p0 feed gens = (l, gens', e) ->
  forall s, In s l -> forall j', j' < sub s ->
  exists s', In s' l /\ pos s' = pos s /\ idx s' = idx s /\ sub s' = j'
             /\ exists o, resp s' = Yielded o.
Proof.
  induction feed as [|line feed IH]; intros p0 gens l gens' e H s Hin j' Hj.
  - inversion H; subst. contradiction.
  - apply for_lines_cons_inv in H.
    destruct H as (l1 & gens1 & e1 & Hr & H).
    destruct H as [(-> & l2 & Hl & ->)|(_ & -> & _)].
    + apply in_app_or in Hin. destruct Hin as [Hin|Hin].
      * destruct (for_processors_ranks _ _ _ _ _ _ _ _ Hr s Hin j' Hj)
          as (s' & Hin' & Hs').
        exists s'. split; [apply in_or_app; auto|exact Hs'].
      * destruct (IH _ _ _ _ _ Hl s Hin j' Hj) as (s' & Hin' & Hs').
        exists s'. split; [apply in_or_app; auto|exact Hs'].
    + eapply for_processors_ranks; eauto.
Qed.

(** ** Fuel *)

(** A delivery, a round or a run that ended otherwise than by lack of fuel
    is the same with more fuel. *)
Lemma advance_more_fuel n : forall p i j aw g v l r m,
  advance n p i j aw g v = (l, r) -> r <> Stalled -> n <= m ->
  advance m p i j aw g v = (l, r).
Proof.
  induction n as [|n IH]; intros p i j aw g v l r m H Hr Hm; simpl in H.
  - inversion H; subst. congruence.
  - destruct m as [|m]; [lia|]. simpl.
    destruct (send g v) as [o g'|g'| |x|]; try assumption.
    destruct (is_none o); [assumption|].
    destruct (advance n p i (S j) false g' VNone) as [l' r'] eqn:Ha.
    inversion H; subst.
    rewrite (IH _ _ _ _ _ _ _ _ m Ha Hr); [reflexivity|lia].
Qed.

Lemma for_processors_more_fuel n m p line gens : forall i0 l gens' e,
  for_processors n p i0 line gens = (l, gens', e) -> e <> Unfinished ->
  n <= m ->
  for_processors m p i0 line gens = (l, gens', e).
Proof.
  induction gens as [|slot rest IH]; intros i0 l gens' e H He Hm.
  - exact H.
  - destruct slot as [g|g|]; simpl in H |- *.
    + destruct (advance n p i0 0 false g line) as [l1 r] eqn:Ha.
      destruct r as [slot'|x|].
      * destruct (for_processors n p (S i0) line rest) as [[l2 rest'] e2] eqn:Hr.
        inversion H; subst.
        rewrite (advance_more_fuel _ _ _ _ _ _ _ _ _ m Ha); [|discriminate|lia].
        rewrite (IH _ _ _ _ Hr He Hm). reflexivity.
      * rewrite (advance_more_fuel _ _ _ _ _ _ _ _ _ m Ha); [|discriminate|lia].
        exact H.
      * inversion H; subst. congruence.
    + destruct (advance n p i0 0 true g line) as [l1 r] eqn:Ha.
      destruct r as [slot'|x|].
      * destruct (for_processors n p (S i0) line rest) as [[l2 rest'] e2] eqn:Hr.
        inversion H; subst.
        rewrite (advance_more_fuel _ _ _ _ _ _ _ _ _ m Ha); [|discriminate|lia].
        rewrite (IH _ _ _ _ Hr He Hm). reflexivity.
      * rewrite (advance_more_fuel _ _ _ _ _ _ _ _ _ m Ha); [|discriminate|lia].
        exact H.
      * inversion H; subst. congruence.
    + destruct (for_processors n p (S i0) line rest) as [[l2 rest'] e2] eqn:Hr.
      inversion H; subst.
      rewrite (IH _ _ _ _ Hr He Hm). reflexivity.
Qed.

Lemma for_lines_more_fuel n m feed : forall p0 gens l gens' e,
  for_lines n p0 feed gens = (l, gens', e) -> e <> Unfinished -> n <= m ->
  for_lines m p0 feed gens = (l, gens', e).
Proof.
  induction feed as [|line feed IH]; intros p0 gens l gens' e H He Hm.
  - exact H.
  - simpl in H |- *.
    destruct (for_processors n p0 0 line gens) as [[l1 gens1] e1] eqn:Hr.
    destruct e1 as [|x|].
    + rewrite (for_processors_more_fuel _ m _ _ _ _ _ _ _ Hr); [|discriminate|lia].
      destruct (for_lines n (S p0) feed gens1) as [[l2 gens2] e2] eqn:Hl.
      inversion H; subst.
      rewrite (IH _ _ _ _ _ Hl He Hm). reflexivity.
    + rewrite (for_processors_more_fuel _ m _ _ _ _ _ _ _ Hr); [|discriminate|lia].
      exact H.
    + inversion H; subst. congruence.
Qed.

(** ** A delivery is drained before the next one *)

Lemma burst_first p i j aw v l r :
  burst p i j aw v l r ->
  (l = [] /\ r = Stalled) \/ exists rs l', l = Step p i j aw v rs :: l'.
Proof. destruct 1; eauto. Qed.

Lemma burst_drained p i j aw v l r :
  burst p i j aw v l r -> drained (r = Stalled) l.
Proof.
  induction 1; simpl; try (split; [intros o' Ho; discriminate Ho|exact I]);
    [exact I|].
  split; [|assumption]. intros o' _.
  destruct (burst_first _ _ _ _ _ _ _ H) as [(-> & ->)|(rs & l' & ->)];
    simpl; auto.
Qed.

Lemma drained_weaken (P Q : Prop) l :
  (P -> Q) -> drained P l -> drained Q l.
Proof.
  intros HPQ. induction l as [|s l IH]; simpl; [auto|].
  intros (Hs & Hl). split; [|auto].
  intros o Ho. specialize (Hs o Ho). destruct l; auto.
Qed.

Lemma drained_app (P : Prop) l1 l2 :
  drained False l1 -> drained P l2 -> drained P (l1 ++ l2).
Proof.
  induction l1 as [|s l1 IH]; simpl; [auto|].
  intros (Hs & Hl1) H2. split; [|auto].
  intros o Ho. specialize (Hs o Ho).
  destruct l1 as [|s' l1]; [contradiction|exact Hs].
Qed.

Lemma drained_split (P : Prop) l1 s l2 o :
  drained P (l1 ++ s :: l2) -> resp s = Yielded o ->
  match l2 with
  | [] => P
  | s' :: _ =>
      pos s' = pos s /\ idx s' = idx s /\ sub s' = S (sub s)
      /\ sent s' = VNone /\ in_await s' = false
  end.
Proof.
  induction l1 as [|s1 l1 IH]; simpl.
  - intros (Hs & _) Ho. exact (Hs o Ho).
  - intros (_ & Hl). now apply IH.
Qed.

Lemma for_processors_drained fuel p line gens : forall i0 l gens' e,
  for_processors fuel p i0 line gens = (l, gens', e) ->
  drained (e = Unfinished) l.
Proof.
  induction gens as [|slot rest IH]; intros i0 l gens' e H.
  - inversion H; subst. exact I.
  - apply for_processors_cons_inv in H.
    destruct H as [(-> & rest' & Hr & ->)|(g & l1 & r & Hg & Ha & Hr)].
    + eauto.
    + apply advance_burst, burst_drained in Ha.
      destruct r as [slot'|x|].
      * destruct Hr as (l2 & rest' & Hr & -> & ->).
        apply drained_app; [|eauto].
        eapply drained_weaken; [|exact Ha]. discriminate.
      * destruct Hr as (-> & _ & ->).
        eapply drained_weaken; [|exact Ha]. discriminate.
      * destruct Hr as (-> & _ & ->).
        eapply drained_weaken; [|exact Ha]. reflexivity.
Qed.

Lemma for_lines_drained fuel feed : forall p0 gens l gens' e,
  for_lines fuel p0 feed gens = (l, gens', e) ->
  drained (e = Unfinished) l.
Proof.
  induction feed as [|line feed IH]; intros p0 gens l gens' e H.
  - inversion H; subst. exact I.
  - apply for_lines_cons_inv in H.
    destruct H as (l1 & gens1 & e1 & Hr & H).
    apply for_processors_drained in Hr.
    destruct H as [(-> & l2 & Hl & ->)|(_ & -> & _ & ->)]; [|assumption].
    apply drained_app; [|eauto].
    eapply drained_weaken; [|exact Hr]. discriminate.
Qed.

(** ** What a processor is sent is what its generator receives *)

Lemma filter_idx_all i l :
  Forall (fun s => idx s = i) l -> filter (fun s => idx s =? i) l = l.
Proof.
  induction 1 as [|s l Hs _ IH]; [reflexivity|].
  simpl. rewrite Hs, Nat.eqb_refl, IH. reflexivity.
Qed.

Lemma filter_idx_none i l :
  Forall (fun s => idx s <> i) l -> filter (fun s => idx s =? i) l = [].
Proof.
  induction 1 as [|s l Hs _ IH]; [reflexivity|].
  simpl. apply Nat.eqb_neq in Hs. now rewrite Hs.
Qed.





End SchedulerFacts.

(** * The scheduler: theorems on a whole run *)

Lemma app_last_cases {A} (l1 l2 l' : list A) (x z : A) :
  l1 ++ x :: l2 = l' ++ [z] -> (l2 = [] /\ l1 = l' /\ x = z) \/ In x l'.
Proof.
  destruct l2 as [|y l2] using rev_ind; intros H.
  - apply app_inj_tail in H. left. tauto.
  - clear IHl2. right.
    change (l1 ++ x :: l2 ++ [y]) with (l1 ++ (x :: l2) ++ [y]) in H.
    rewrite app_assoc in H. apply app_inj_tail in H. destruct H as [<- _].
    apply in_or_app. right. simpl. auto.
Qed.


Section Runs.
Context {T O : Type} {HT : PyValue T} {HO : PyValue O}.
Implicit Types (l : list (step T O)) (s : step T O).
Implicit Types (pfs : list (asyncgen T (value T) -> asyncgen T O)).

Lemma events_unkeyed l : events l = map unkeyed (keyed_events l).
Proof.
  induction l as [|s l IH]; [reflexivity|].
  unfold events, keyed_events in *. simpl. rewrite map_app, IH.
  f_equal. unfold event, keyed_event. destruct (resp s); reflexivity.
Qed.

Lemma in_keyed_events l e :
  In e (keyed_events l) ->
  exists s, In s l /\ fst e = key s /\ resp s = Yielded (snd e).
Proof.
  unfold keyed_events. rewrite in_flat_map.
  intros (s & Hs & He). exists s. split; [assumption|].
  unfold keyed_event in He. destruct (resp s); try contradiction.
  destruct He as [<-|[]]. auto.
Qed.

Lemma keyed_events_sorted l :
  StronglySorted step_before l -> StronglySorted event_lt (keyed_events l).
Proof.
  induction 1 as [|s l Hl IH Hs]; [constructor|].
  change (keyed_events (s :: l)) with (keyed_event s ++ keyed_events l).
  apply StronglySorted_app; auto.
  - unfold keyed_event. destruct (resp s); repeat constructor.
  - intros a b Ha Hb.
    unfold keyed_event in Ha. destruct (resp s); try contradiction.
    destruct Ha as [<-|[]].
    apply in_keyed_events in Hb. destruct Hb as (s' & Hs' & Hk & _).
    rewrite Forall_forall in Hs. apply Hs in Hs'.
    unfold event_lt. rewrite Hk. apply Hs'.
Qed.

Lemma gather_events fuel pfs xs :
  gather_processors fuel pfs xs
  = (events (steps_of (gather_steps fuel pfs xs)),
     ending_of (gather_steps fuel pfs xs)).
Proof.
  unfold gather_processors, steps_of, ending_of.
  destruct (gather_steps fuel pfs xs) as [[l gens'] e]. reflexivity.
Qed.

Lemma gather_sorted fuel pfs xs :
  StronglySorted step_before (steps_of (gather_steps fuel pfs xs)).
Proof.
  unfold gather_steps, steps_of.
  destruct (for_lines _ _ _ _) as [[l gens'] e] eqn:H.
  eapply for_lines_sorted; eauto.
Qed.

Lemma keyed_events_in l s o :
  In s l -> resp s = Yielded o -> In (key s, o) (keyed_events l).
Proof.
  intros Hin Hs. unfold keyed_events. apply in_flat_map.
  exists s. split; [assumption|]. unfold keyed_event. rewrite Hs. simpl. auto.
Qed.

Lemma gather_ranks fuel pfs xs e j :
  In e (keyed_events (steps_of (gather_steps fuel pfs xs))) ->
  j < ev_sub e ->
  exists o,
    In (ev_pos e, ev_idx e, j, o)
      (keyed_events (steps_of (gather_steps fuel pfs xs))).
Proof.
  unfold gather_steps, steps_of.
  destruct (for_lines _ _ _ _) as [[l gens'] en] eqn:H. simpl.
  intros He Hj. apply in_keyed_events in He.
  destruct He as (s & Hin & Hk & _).
  assert (Hsub : ev_sub e = sub s) by (unfold ev_sub; now rewrite Hk).
  assert (Hpos : ev_pos e = pos s) by (unfold ev_pos; now rewrite Hk).
  assert (Hidx : ev_idx e = idx s) by (unfold ev_idx; now rewrite Hk).
  rewrite Hsub in Hj.
  destruct (for_lines_ranks _ _ _ _ _ _ _ H s Hin j Hj)
    as (s' & Hin' & Hp & Hi & Hj' & o & Ho).
  exists o. rewrite Hpos, Hidx, <- Hp, <- Hi, <- Hj'.
  now apply keyed_events_in.
Qed.

Lemma gather_drained fuel pfs xs :
  drained (ending_of (gather_steps fuel pfs xs) = Unfinished)
    (steps_of (gather_steps fuel pfs xs)).
Proof.
  unfold gather_steps, steps_of, ending_of.
  destruct (for_lines _ _ _ _) as [[l gens'] e] eqn:H.
  eapply for_lines_drained; eauto.
Qed.

(** C2: the events of a run come out in the order of the key (position of
    the token in the feed, index of the processor, rank within the
    delivery).  The steps of the run, and so its events, are strictly
    increasing in that key; between two events of one processor for one
    token there is no event of another processor or token; the rank of an
    event is its place among the events of its delivery (every smaller rank
    is the rank of an event of the same delivery).  A processor is drained
    before the scheduler moves on: after a [send] that yielded, the next
    [send] of the run goes to the same processor for the same token, with
    [None] and to a new awaitable (unless the run stopped there for want of
    fuel); and a [send] that did not yield is followed only by a [send] to
    a later processor or for a later token. *)
Theorem events_totally_ordered fuel pfs xs :
  fst (gather_processors fuel pfs xs)
  = map unkeyed (keyed_events (steps_of (gather_steps fuel pfs xs)))
  /\ StronglySorted event_lt
       (keyed_events (steps_of (gather_steps fuel pfs xs)))
  /\ (forall a b c ea eb ec,
         a < b -> b < c ->
         nth_error (keyed_events (steps_of (gather_steps fuel pfs xs))) a
         = Some ea ->
         nth_error (keyed_events (steps_of (gather_steps fuel pfs xs))) b
         = Some eb ->
         nth_error (keyed_events (steps_of (gather_steps fuel pfs xs))) c
         = Some ec ->
         ev_pos ea = ev_pos ec -> ev_idx ea = ev_idx ec ->
         ev_pos eb = ev_pos ea /\ ev_idx eb = ev_idx ea
         /\ ev_sub ea < ev_sub eb < ev_sub ec)
  /\ StronglySorted step_before (steps_of (gather_steps fuel pfs xs))
  /\ (forall e j,
         In e (keyed_events (steps_of (gather_steps fuel pfs xs))) ->
         j < ev_sub e ->
         exists o,
           In (ev_pos e, ev_idx e, j, o)
             (keyed_events (steps_of (gather_steps fuel pfs xs))))
  /\ (forall l1 s l2 o,
         steps_of (gather_steps fuel pfs xs) = l1 ++ s :: l2 ->
         resp s = Yielded o ->
         (l2 = [] /\ snd (gather_processors fuel pfs xs) = Unfinished)
         \/ exists s' l2',
              l2 = s' :: l2' /\ pos s' = pos s /\ idx s' = idx s
              /\ sub s' = S (sub s) /\ sent s' = VNone
              /\ in_await s' = false)
  /\ (forall l1 s s' l2,
         steps_of (gather_steps fuel pfs xs) = l1 ++ s :: s' :: l2 ->
         (exists o, resp s = Yielded o)
         \/ pos s < pos s' \/ (pos s = pos s' /\ idx s < idx s')).
Proof.
  pose proof (gather_sorted fuel pfs xs) as Hs.
  pose proof (keyed_events_sorted _ Hs) as Hk.
  split; [rewrite gather_events; apply events_unkeyed|].
  split; [assumption|].
  split; [|split; [assumption|split; [apply gather_ranks|split]]].
  - intros a b c ea eb ec Hab Hbc Ha Hb Hc Hp Hi.
    pose proof (StronglySorted_nth _ _ Hk a b ea eb Hab Ha Hb) as H1.
    pose proof (StronglySorted_nth _ _ Hk b c eb ec Hbc Hb Hc) as H2.
    unfold event_lt, key_lt, ev_pos, ev_idx, ev_sub in *.
    destruct ea as [[[p1 i1] j1] o1], eb as [[[p2 i2] j2] o2],
      ec as [[[p3 i3] j3] o3]. simpl in *. lia.
  - intros l1 s l2 o E Ho.
    pose proof (gather_drained fuel pfs xs) as Hd. rewrite E in Hd.
    pose proof (drained_split _ _ _ _ _ Hd Ho) as H.
    destruct l2 as [|s' l2'].
    + left. split; [reflexivity|]. rewrite gather_events. exact H.
    + right. exists s', l2'. auto.
  - intros l1 s s' l2 E. rewrite E in Hs.
    apply StronglySorted_split in Hs. inversion Hs as [|? ? Hss _]; subst.
    destruct Hss as (Hlt & Hy). unfold key_lt, key in Hlt.
    destruct (resp s) as [o| | | | |] eqn:Hr; [left; eauto|..];
      right;
      (destruct Hlt as [Hlt|(Hp & [Hlt|(Hi & _)])];
       [left; exact Hlt|right; split; assumption|];
       destruct (Hy Hp Hi) as (o & Ho); discriminate Ho).
Qed.

(** ** Facts on the feed and on the slots a run starts from *)

Lemma effective_feed_length (xs : list T) :
  length (effective_feed xs) = S (S (length xs)).
Proof.
  unfold effective_feed. simpl. rewrite length_app, length_map. simpl. lia.
Qed.





Lemma gather_in_lines fuel pfs xs :
  Forall (in_lines 0 (effective_feed xs)
            (map Fresh (map (fun p => p read_input_lines) pfs)))
    (steps_of (gather_steps fuel pfs xs)).
Proof.
  unfold gather_steps, steps_of.
  destruct (for_lines _ _ _ _) as [[l gens'] e] eqn:H.
  eapply for_lines_steps; eauto.
Qed.

Lemma gather_step fuel pfs xs s :
  In s (steps_of (gather_steps fuel pfs xs)) ->
  pos s <= S (length xs) /\ idx s < length pfs
  /\ (sub s = 0 -> nth_error (effective_feed xs) (pos s) = Some (sent s))
  /\ (sub s <> 0 -> sent s = VNone /\ in_await s = false).
Proof.
  intros Hin. pose proof (gather_in_lines fuel pfs xs) as H.
  rewrite Forall_forall in H. specialize (H s Hin).
  pose proof (in_lines_pos _ _ _ _ H) as (Hp & Hi).
  rewrite effective_feed_length in Hp. rewrite !length_map in Hi.
  destruct H as (q & line & Hq & Hpq & H0 & H1 & _).
  simpl in Hpq. subst q.
  split; [lia|]. split; [assumption|]. split; [|assumption].
  intros E. rewrite (H0 E). assumption.
Qed.






(** C8: an exception raised by a generator is not caught by the inner loop;
    the step that failed is the last step of the run, which ends with that
    exception; the events are those emitted before it.  A run ends with an
    exception only at its last step, and only in one of two ways: that
    [send] raised the exception, or it came back with a yielded [None] and
    the scheduler's own [exn.args[0]] raised [IndexError]. *)
Theorem exception_aborts_run fuel pfs xs :
  (forall n p i j aw (g : asyncgen T O) v x,
      send g v = Raises x ->
      advance (S n) p i j aw g v = ([Step p i j aw v (Failed x)], Raised x))
  /\ (forall l1 s l2 x,
      steps_of (gather_steps fuel pfs xs) = l1 ++ s :: l2 ->
      resp s = Failed x ->
      l2 = []
      /\ gather_processors fuel pfs xs = (events l1, Aborted x))
  /\ (forall x,
      snd (gather_processors fuel pfs xs) = Aborted x ->
      exists l1 s,
        steps_of (gather_steps fuel pfs xs) = l1 ++ [s]
        /\ (resp s = Failed x \/ (resp s = YieldedNone /\ x = IndexError))
        /\ fst (gather_processors fuel pfs xs) = events l1)
  /\ (forall l1 s l2,
      steps_of (gather_steps fuel pfs xs) = l1 ++ s :: l2 ->
      resp s = YieldedNone ->
      l2 = []
      /\ gather_processors fuel pfs xs = (events l1, Aborted IndexError)).
Proof.
  assert (Hf : match ending_of (gather_steps fuel pfs xs) with
               | Aborted x =>
                   exists l' s,
                     steps_of (gather_steps fuel pfs xs) = l' ++ [s]
                     /\ raised s x /\ Forall not_failed l'
               | _ => Forall not_failed (steps_of (gather_steps fuel pfs xs))
               end).
  { unfold gather_steps, steps_of, ending_of.
    destruct (for_lines _ _ _ _) as [[l gens'] e] eqn:H. simpl.
    apply (for_lines_failing _ _ _ _ _ _ _ H). }
  assert (Hev : forall l1 s x, raised s x -> events (l1 ++ [s]) = events l1).
  { intros l1 s x Hs. unfold events. rewrite flat_map_app. simpl.
    unfold event. destruct Hs as [Hs|[Hs _]]; rewrite Hs; now rewrite app_nil_r. }
  assert (Hlast : forall l1 s l2 x,
             steps_of (gather_steps fuel pfs xs) = l1 ++ s :: l2 ->
             raised s x ->
             l2 = []
             /\ gather_processors fuel pfs xs = (events l1, Aborted x)).
  { intros l1 s l2 x E Hs. rewrite gather_events.
    destruct (ending_of (gather_steps fuel pfs xs)) as [|y|].
    + exfalso. rewrite Forall_forall in Hf.
      apply (Hf s) with (x := x);
        [rewrite E; apply in_or_app; simpl; auto|exact Hs].
    + destruct Hf as (l' & z & E' & Hz & Hl').
      rewrite E in E'.
      destruct (app_last_cases _ _ _ _ _ E') as [(-> & -> & ->)|Hin].
      * split; [reflexivity|]. rewrite E.
        rewrite (Hev _ _ _ Hs). f_equal. f_equal.
        destruct Hs as [Hs|[Hs ->]]; destruct Hz as [Hz|[Hz ->]];
          congruence.
      * exfalso. rewrite Forall_forall in Hl'. apply (Hl' s Hin x Hs).
    + exfalso. rewrite Forall_forall in Hf.
      apply (Hf s) with (x := x);
        [rewrite E; apply in_or_app; simpl; auto|exact Hs]. }
  split; [|split; [|split]].
  - intros n p i j aw g v x Hs. simpl. rewrite Hs. reflexivity.
  - intros l1 s l2 x E Hs. apply (Hlast l1 s l2 x E). now left.
  - intros x He. rewrite gather_events in He |- *. simpl in He |- *.
    rewrite He in Hf. destruct Hf as (l' & z & E' & Hz & _).
    exists l', z. split; [assumption|]. split; [exact Hz|].
    rewrite E'. eapply Hev; eauto.
  - intros l1 s l2 E Hs. apply (Hlast l1 s l2 IndexError E). right. auto.
Qed.

(** ** The first round and the rest of the run *)







Lemma for_lines_cons fuel p (line : value T) feed (gens : list (slot T O)) :
  for_lines fuel p (line :: feed) gens
  = match for_processors fuel p 0 line gens with
    | (l, gens', Completed) =>
        let '(l', gens'', e) := for_lines fuel (S p) feed gens' in
        (l ++ l', gens'', e)
    | (l, gens', e) => (l, gens', e)
    end.
Proof. reflexivity. Qed.

End Runs.

(** The relay itself as a processor: its events are the input, up to the
    first [None]. *)
Section RelayAsProcessor.
Context {T : Type} {HT : PyValue T}.

Let relay_awaiting : asyncgen T (value T) :=
  AsyncGen RelayAwaiting read_input_lines_send.



Lemma relay_round_sentinel k p :
  for_processors (S k) p 0 VSentinel [Awaiting relay_awaiting]
  = ([Step p 0 0 true VSentinel Stopped], [Finished], Completed).
Proof. reflexivity. Qed.



End RelayAsProcessor.

Section NullToken.
Context {T O : Type} {HT : PyValue T} {HO : PyValue O}.
Implicit Types (pfs : list (asyncgen T (value T) -> asyncgen T O)).


End NullToken.

(** * Processors that read their input through the relay *)

Section CallOverRelay.
Context {T O : Type} {HT : PyValue T} {HO : PyValue O}.
Context (f : agenfun (value T) O) (budget : nat).

Let relay : asyncgen T (value T) := read_input_lines.
Let csend := call_send f relay budget.





Lemma send_call fr v :
  send (AsyncGen fr csend) v
  = match csend fr v with
    | StopIteration x fr' => StopIteration x (AsyncGen fr' csend)
    | Pending fr' => Pending (AsyncGen fr' csend)
    | StopAsyncIteration => StopAsyncIteration
    | Raises e => Raises e
    | Diverges => Diverges
    end.
Proof. reflexivity. Qed.







End CallOverRelay.

Section Sentinel.
Context {T O : Type} {HT : PyValue T} {HO : PyValue O}.
Implicit Types (pfs : list (asyncgen T (value T) -> asyncgen T O)).


End Sentinel.


(** * The relay *)

Section Relay.
Context {T : Type}.

Lemma consume_relay (delivered : list (value T)) : forall k fr,
  fr = RelayCreated \/ fr = RelayYielded ->
  consume (2 * length delivered + 1 + k)
    (AsyncGen fr (@read_input_lines_send T)) VNone delivered
  = relay_spec delivered.
Proof.
  induction delivered as [|d rest IH]; intros k fr Hfr.
  - replace (2 * length (@nil (value T)) + 1 + k) with (S k)
      by (simpl; lia).
    destruct Hfr as [-> | ->]; reflexivity.
  - replace (2 * length (d :: rest) + 1 + k)
      with (S (S (2 * length rest + 1 + k))) by (simpl; lia).
    specialize (IH k RelayYielded (or_intror eq_refl)).
    destruct Hfr as [-> | ->];
      (destruct d as [|x|];
       [ change (Suspends :: Element (@VNone T)
                   :: consume (2 * length rest + 1 + k)
                        (AsyncGen RelayYielded read_input_lines_send)
                        VNone rest
                 = relay_spec (VNone :: rest))
       | change (Suspends :: Element (VTok x)
                   :: consume (2 * length rest + 1 + k)
                        (AsyncGen RelayYielded read_input_lines_send)
                        VNone rest
                 = relay_spec (VTok x :: rest))
       | reflexivity ];
       rewrite IH; reflexivity).
Qed.

Lemma relay_spec_elements (delivered : list (value T)) :
  elements (relay_spec delivered) = before_sentinel delivered.
Proof.
  induction delivered as [|d rest IH]; [reflexivity|].
  simpl. destruct (is_sentinel d); [reflexivity|].
  simpl. f_equal. exact IH.
Qed.

Lemma relay_spec_suspensions (delivered : list (value T)) :
  suspensions (relay_spec delivered)
  = S (length (before_sentinel delivered)).
Proof.
  induction delivered as [|d rest IH]; [reflexivity|].
  simpl. destruct (is_sentinel d); [reflexivity|].
  simpl. f_equal. exact IH.
Qed.

Lemma relay_spec_ends (delivered : list (value T)) :
  In Ends (relay_spec delivered) <-> In VSentinel delivered.
Proof.
  induction delivered as [|d rest IH]; simpl.
  - split; [intros [H|[]]; discriminate|tauto].
  - destruct d as [|x|]; simpl.
    + rewrite <- IH. split.
      * intros [H|[H|H]]; try discriminate; auto.
      * intros [H|H]; [discriminate|auto].
    + rewrite <- IH. split.
      * intros [H|[H|H]]; try discriminate; auto.
      * intros [H|H]; [discriminate|auto].
    + split; auto.
Qed.

(** C6: driven with any delivered values, [read_input_lines(sentinel)]
    suspends exactly once for each element, passes every delivered value on
    unchanged and in order while it is not the sentinel, and ends at the
    first sentinel without passing it on. *)
Theorem relay_until_sentinel (delivered : list (value T)) (k : nat) :
  consume (2 * length delivered + 1 + k) read_input_lines VNone delivered
  = relay_spec delivered
  /\ elements (consume (2 * length delivered + 1 + k)
                 read_input_lines VNone delivered)
     = before_sentinel delivered
  /\ suspensions (consume (2 * length delivered + 1 + k)
                    read_input_lines VNone delivered)
     = S (length (before_sentinel delivered))
  /\ (In Ends (consume (2 * length delivered + 1 + k)
                 read_input_lines VNone delivered)
      <-> In VSentinel delivered).
Proof.
  unfold read_input_lines.
  rewrite (consume_relay delivered k RelayCreated (or_introl eq_refl)).
  split; [reflexivity|].
  split; [apply relay_spec_elements|].
  split; [apply relay_spec_suspensions|apply relay_spec_ends].
Qed.

End Relay.

(** * The scenario of the empty input *)

Section HelloWorld.
Variable yelled : string -> string.

Lemma exclaim_first_round k b :
  for_processors (S (S k)) 0 0 VNone
    [Fresh (exclaim_processor yelled (S b) read_input_lines)]
  = ([Step 0 0 0 false VNone (Yielded "Hello world!"%string);
      Step 0 0 1 false VNone Suspended],
     [Awaiting (AsyncGen (CallAwaiting exclaim_for RelayAwaiting)
                  (call_send (exclaim_body yelled) read_input_lines (S b)))],
     Completed).
Proof. reflexivity. Qed.

(** C7: with no processor and no input the scheduler yields nothing; with
    [exclaim_async_iterable] alone and no input it yields the one event
    [(0, 'Hello world!')]; and on any input that event comes first, at the
    position of the leading [None], before any token of the input is
    delivered (every other event has a later position). *)
Theorem hello_world_first :
  (forall fuel,
      gather_processors (T:=string) (O:=string) fuel [] [] = ([], Completed))
  /\ (forall k b,
      gather_processors (S (S k)) [exclaim_processor yelled (S b)] []
      = ([(0, "Hello world!"%string)], Completed))
  /\ (forall k b xs, exists rest,
         keyed_events
           (steps_of (gather_steps (S (S k))
                        [exclaim_processor yelled (S b)] xs))
         = (0, 0, 0, "Hello world!"%string) :: rest
         /\ Forall (fun e => 1 <= ev_pos e) rest).
Proof.
  split; [|split].
  - reflexivity.
  - reflexivity.
  - intros k b xs. unfold gather_steps, effective_feed.
    change ([VNone] ++ map tok xs ++ [VSentinel])
      with (@VNone string :: map tok xs ++ [VSentinel]).
    rewrite for_lines_cons. cbn [map].
    rewrite exclaim_first_round.
    destruct (for_lines (S (S k)) 1 (map tok xs ++ [VSentinel]) _)
      as [[l1 gens'] e] eqn:Hl.
    exists (keyed_events l1). split; [reflexivity|].
    apply Forall_forall. intros ev Hev.
    apply in_keyed_events in Hev. destruct Hev as (s & Hin & Hk & _).
    apply for_lines_steps in Hl. rewrite Forall_forall in Hl.
    apply Hl, in_lines_pos in Hin.
    unfold ev_pos. rewrite Hk. simpl. lia.
Qed.

End HelloWorld.

(** * The theorems at concrete runs *)


(** X13 at the body that yields every item, over a list that holds [None],
    and at [exclaim_async_iterable] over a list of three lines. *)
Lemma syncgenerator_plain_is_direct_witness :
  iterate 9
    (syncgenerator (T:=string) 8 echo_body
       (PlainIterable [Some "a"; None; Some "b"]%string))
  = ([Some "a"%string], Aborted IndexError)
  /\ iterate 7
       (syncgenerator (T:=string) 6 (exclaim_body someone_yelled)
          (PlainIterable [VTok "a!"; VTok "Goodbye!"; VTok "x!"]%string))
     = (["Hello world!"; "Someone yelled 'a!'";
         "Someone yelled 'Goodbye!'"]%string, Completed).
Proof.
  assert (He : Completed <> Unfinished) by discriminate.
  split.
  - assert (Hb : 8 <= 8) by lia. assert (Hf : 8 < 9) by lia.
    exact (proj1 (proj2 (syncgenerator_plain_is_direct (T:=string)
                           echo_body [Some "a"; None; Some "b"]%string 8)
                    8 [Some "a"; None; Some "b"]%string Completed
                    eq_refl He Hb 9 Hf)).
  - assert (Hb : 6 <= 6) by lia. assert (Hf : 6 < 7) by lia.
    apply (proj2 (proj2 (syncgenerator_plain_is_direct (T:=string)
                           (exclaim_body someone_yelled)
                           [VTok "a!"; VTok "Goodbye!"; VTok "x!"]%string 6)
                    6 ["Hello world!"; "Someone yelled 'a!'";
                       "Someone yelled 'Goodbye!'"]%string Completed
                    eq_refl He Hb 7 Hf)).
    repeat constructor.
Defined.

(** C2 at a processor that emits three events before its first [await],
    followed by [exclaim_async_iterable], on two lines: the three events
    come first; after the first of them the same processor is sent [None]
    again; and its last [send], which did not yield, is followed by the
    first [send] to the next processor. *)
Lemma events_totally_ordered_witness :
  keyed_events
    (steps_of (gather_steps 4 chatter_and_exclaim ["Hi!"; "Goodbye!"]%string))
  = [(0, 0, 0, "a"); (0, 0, 1, "b"); (0, 0, 2, "c");
     (0, 1, 0, "Hello world!"); (1, 1, 0, "Someone yelled 'Hi!'");
     (2, 1, 0, "Someone yelled 'Goodbye!'")]%string
  /\ (ev_pos (0, 0, 1, "b"%string) = 0 /\ ev_idx (0, 0, 1, "b"%string) = 0
      /\ 0 < ev_sub (0, 0, 1, "b"%string) < 2)
  /\ ((skipn 1 (steps_of (gather_steps 4 chatter_and_exclaim
                            ["Hi!"; "Goodbye!"]%string)) = []
       /\ snd (gather_processors 4 chatter_and_exclaim
                 ["Hi!"; "Goodbye!"]%string) = Unfinished)
      \/ exists s' l2',
           skipn 1 (steps_of (gather_steps 4 chatter_and_exclaim
                                ["Hi!"; "Goodbye!"]%string)) = s' :: l2'
           /\ pos s' = 0 /\ idx s' = 0 /\ sub s' = 1 /\ sent s' = VNone
           /\ in_await s' = false)
  /\ ((exists o, @Stopped string = Yielded o)
      \/ 0 < 0 \/ (0 = 0 /\ 0 < 1)).
Proof.
  split; [reflexivity|]. split; [|split].
  - apply (proj1 (proj2 (proj2
             (events_totally_ordered 4 chatter_and_exclaim
                ["Hi!"; "Goodbye!"]%string)))
             0 1 2 (0, 0, 0, "a"%string) (0, 0, 1, "b"%string)
             (0, 0, 2, "c"%string));
      try reflexivity; lia.
  - exact (proj1 (proj2 (proj2 (proj2 (proj2 (proj2
             (events_totally_ordered 4 chatter_and_exclaim
                ["Hi!"; "Goodbye!"]%string))))))
             [] (Step 0 0 0 false VNone (Yielded "a"%string))
             (skipn 1 (steps_of (gather_steps 4 chatter_and_exclaim
                                   ["Hi!"; "Goodbye!"]%string)))
             "a"%string eq_refl eq_refl).
  - exact (proj2 (proj2 (proj2 (proj2 (proj2 (proj2
             (events_totally_ordered 4 chatter_and_exclaim
                ["Hi!"; "Goodbye!"]%string))))))
             (firstn 3 (steps_of (gather_steps 4 chatter_and_exclaim
                                    ["Hi!"; "Goodbye!"]%string)))
             (Step 0 0 3 false VNone Stopped)
             (Step 0 1 0 false VNone (Yielded "Hello world!"%string))
             (skipn 5 (steps_of (gather_steps 4 chatter_and_exclaim
                                   ["Hi!"; "Goodbye!"]%string)))
             eq_refl).
Defined.




(** C8 at a processor that raises when it is sent the sentinel, and at a
    processor that yields a line that is [None]. *)
Lemma exception_aborts_run_witness :
  (steps_of (gather_steps 1 failing_and_stubborn [])
   = [Step 0 0 0 false VNone Suspended; Step 0 1 0 false VNone Suspended]
     ++ Step 1 0 0 true VSentinel (Failed (Exception "boom")) :: []
   /\ gather_processors 1 failing_and_stubborn []
      = ([], Aborted (Exception "boom")))
  /\ (steps_of (gather_steps 2 echo_processor [Some "a"; None]%string)
      = [Step 0 0 0 false VNone Suspended;
         Step 1 0 0 true (VTok (Some "a"%string))
           (Yielded (VTok (Some "a"%string)));
         Step 1 0 1 false VNone Suspended]
        ++ Step 2 0 0 true VNone YieldedNone :: []
      /\ gather_processors 2 echo_processor [Some "a"; None]%string
         = ([(0, VTok (Some "a"%string))], Aborted IndexError)).
Proof.
  split.
  - split; [reflexivity|].
    apply (proj1 (proj2 (exception_aborts_run 1 failing_and_stubborn []))
             [Step 0 0 0 false VNone Suspended;
              Step 0 1 0 false VNone Suspended]
             (Step 1 0 0 true VSentinel (Failed (Exception "boom"))) []
             (Exception "boom"));
      reflexivity.
  - split; [reflexivity|].
    apply (proj2 (proj2 (proj2
             (exception_aborts_run 2 echo_processor
                [Some "a"; None]%string)))
             [Step 0 0 0 false VNone Suspended;
              Step 1 0 0 true (VTok (Some "a"%string))
                (Yielded (VTok (Some "a"%string)));
              Step 1 0 1 false VNone Suspended]
             (Step 2 0 0 true VNone YieldedNone) []);
      reflexivity.
Defined.




(** * One processor alone: the scheduler against the direct execution *)

Section Solo.
Context {T O : Type} {HT : PyValue T} {HO : PyValue O}.
Context (f : agenfun (value T) O) (budget : nat).

Let relay : asyncgen T (value T) := read_input_lines.
Let csend := call_send f relay budget.

Lemma for_lines_finished fuel (feed : list (value T)) : forall p,
  for_lines fuel p feed [@Finished T O] = ([], [Finished], Completed).
Proof.
  induction feed as [|line feed IH]; intros p; [reflexivity|].
  rewrite for_lines_cons. simpl. now rewrite IH.
Qed.

Lemma events_app (l1 l2 : list (step T O)) :
  events (l1 ++ l2) = events l1 ++ events l2.
Proof. apply flat_map_app. Qed.

Lemma solo_lines_cons fuel p line feed (g : asyncgen T O) (aw : bool) :
  (let '(l, _, e) :=
     for_lines fuel p (line :: feed) [if aw then Awaiting g else Fresh g] in
   (events l, e))
  = solo_rest fuel (S p) feed (advance fuel p 0 0 aw g line).
Proof.
  rewrite for_lines_cons.
  assert (E : for_processors fuel p 0 line [if aw then Awaiting g else Fresh g]
              = match advance fuel p 0 0 aw g line with
                | (l, Parked s') => (l ++ [], [s'], Completed)
                | (l, Raised e) =>
                    (l, [if aw then Awaiting g else Fresh g], Aborted e)
                | (l, Stalled) =>
                    (l, [if aw then Awaiting g else Fresh g], Unfinished)
                end).
  { destruct aw; simpl; destruct (advance fuel p 0 0 _ g line) as [l r];
      destruct r; reflexivity. }
  rewrite E. destruct (advance fuel p 0 0 aw g line) as [l r].
  destruct r as [slot|x|]; simpl; try reflexivity.
  rewrite app_nil_r.
  destruct (for_lines fuel (S p) feed [slot]) as [[l' gens'] e].
  now rewrite events_app.
Qed.

Lemma solo_rest_yielded fuel p (feed : list (value T)) q i j aw
    (v : value T) (o : O) l r :
  solo_rest fuel p feed (Step q i j aw v (Yielded o) :: l, r)
  = (let (evs, e) := solo_rest fuel p feed (l, r) in ((i, o) :: evs, e)).
Proof.
  destruct r as [slot|x|]; simpl; try reflexivity.
  destruct (for_lines fuel p feed [slot]) as [[l' gens'] e]. reflexivity.
Qed.

Lemma advance_S fuel p i j aw fr (v : value T) :
  advance (S fuel) p i j aw (AsyncGen fr csend) v
  = match csend fr v with
    | StopIteration o fr' =>
        if is_none o
        then ([Step p i j aw v YieldedNone], Raised IndexError)
        else
          let (l, r) :=
            advance fuel p i (S j) false (AsyncGen fr' csend) VNone in
          (Step p i j aw v (Yielded o) :: l, r)
    | Pending fr' =>
        ([Step p i j aw v Suspended], Parked (Awaiting (AsyncGen fr' csend)))
    | StopAsyncIteration => ([Step p i j aw v Stopped], Parked Finished)
    | Raises e => ([Step p i j aw v (Failed e)], Raised e)
    | Diverges => ([Step p i j aw v Hung], Stalled)
    end.
Proof.
  cbn [advance]. unfold csend, relay. rewrite (send_call f budget fr v).
  destruct (call_send f read_input_lines budget fr v); reflexivity.
Qed.

Lemma relay_send_tok (x : T) :
  read_input_lines_send RelayAwaiting (tok x)
  = StopIteration (tok x) RelayYielded.
Proof. unfold tok. destruct (is_none x); reflexivity. Qed.

(** A direct execution that ends is what the scheduler yields for the
    processor alone, up to the first [None], from any point of the run
    on. *)
Lemma solo_is_direct (n : nat) :
  forall s xs out e,
    run_direct f n s (map tok xs) = (out, e) -> e <> Unfinished ->
    forall F fuel b p j aw fr v arg feed,
      n <= b -> b <= budget -> n < fuel -> n < F ->
      csend fr v = run f relay b s arg ->
      relay_ahead arg xs feed ->
      solo_rest F (S p) feed (advance fuel p 0 j aw (AsyncGen fr csend) v)
      = (map (pair 0) (fst (up_to_none out e)), snd (up_to_none out e)).
Proof.
  induction n as [|n IH];
    intros s xs out e Hd He F fuel b p j aw fr v arg feed
      Hb Hbudget Hfuel HF Hrun Hrel.
  - simpl in Hd. inversion Hd; subst. congruence.
  - destruct b as [|b]; [lia|]. destruct fuel as [|fuel]; [lia|].
    simpl in Hd. simpl in Hrun.
    destruct (code f s) as [o s'|k| |x].
    + (* yield *)
      destruct (run_direct f n s' (map tok xs)) as [os e'] eqn:Hd'.
      inversion Hd; subst out e'. clear Hd.
      rewrite advance_S, Hrun. cbn [up_to_none].
      destruct (is_none o); [reflexivity|].
      destruct (advance fuel p 0 (S j) false _ VNone) as [l r] eqn:Ha.
      rewrite solo_rest_yielded, <- Ha.
      match goal with
      | |- context [solo_rest ?a ?b ?c ?d] =>
          replace (solo_rest a b c d)
            with (map (pair 0) (fst (up_to_none os e)),
                  snd (up_to_none os e));
            [destruct (up_to_none os e); reflexivity|symmetry]
      end.
      apply (IH s' xs os e Hd' He F fuel budget p (S j) false
               (CallYielded s' arg) VNone arg feed);
        [lia|lia|lia|lia|reflexivity|assumption].
    + (* await the relay *)
      destruct Hrel as [(a & -> & Ha & ->)|(-> & -> & ->)].
      * assert (Hp : read_input_lines_send a (@VNone T) = Pending RelayAwaiting)
          by (destruct Ha as [-> | ->]; reflexivity).
        simpl in Hrun. rewrite Hp in Hrun.
        rewrite advance_S, Hrun.
        unfold solo_rest.
        destruct xs as [|x xs].
        -- (* the sentinel is next *)
           simpl in Hd.
           pose proof (solo_lines_cons F (S p) VSentinel []
                         (AsyncGen (CallAwaiting k RelayAwaiting) csend) true)
             as Hl.
           simpl app. cbv beta iota in Hl.
           destruct (for_lines F (S p) [VSentinel] _) as [[l' g'] e'].
           rewrite Hl.
           apply (IH (k None) [] out e Hd He F F budget (S p) 0 true
                    (CallAwaiting k RelayAwaiting) VSentinel None []);
             [lia|lia|lia|lia|reflexivity|].
           right. auto.
        -- (* a token is next *)
           simpl in Hd.
           pose proof (solo_lines_cons F (S p) (tok x)
                         (map tok xs ++ [VSentinel])
                         (AsyncGen (CallAwaiting k RelayAwaiting) csend) true)
             as Hl.
           simpl app. cbv beta iota in Hl.
           destruct (for_lines F (S p) (tok x :: _) _) as [[l' g'] e'].
           rewrite Hl.
           apply (IH (k (Some (tok x))) xs out e Hd He F F budget (S p)
                    0 true (CallAwaiting k RelayAwaiting) (tok x)
                    (Some RelayYielded) (map tok xs ++ [VSentinel]));
             [lia|lia|lia|lia| |].
           { unfold csend, relay.
             cbn [call_send gen_send read_input_lines].
             now rewrite relay_send_tok. }
           left. exists RelayYielded. auto.
      * (* the relay has returned *)
        simpl in Hd, Hrun.
        apply (IH (k None) [] out e Hd He F (S fuel) b p j aw fr v None []);
          [lia|lia|lia|lia|assumption|].
        right. auto.
    + (* return *)
      inversion Hd; subst. rewrite advance_S, Hrun. simpl.
      now rewrite for_lines_finished.
    + (* raise *)
      inversion Hd; subst. rewrite advance_S, Hrun. reflexivity.
Qed.

Lemma gather_solo_is_direct n xs out e fuel :
  run_direct f n (entry f) (map tok xs) = (out, e) -> e <> Unfinished ->
  n <= budget -> n < fuel ->
  gather_processors fuel [fun it => call f it budget] xs
  = (map (pair 0) (fst (up_to_none out e)), snd (up_to_none out e)).
Proof.
  intros Hd He Hb Hfuel.
  unfold gather_processors, gather_steps, effective_feed.
  change ([VNone] ++ map tok xs ++ [VSentinel])
    with (@VNone T :: (map tok xs ++ [VSentinel])).
  pose proof (solo_lines_cons fuel 0 VNone (map tok xs ++ [VSentinel])
                (call f relay budget) false) as Hl.
  cbv beta iota in Hl. cbn [map].
  destruct (for_lines fuel 0 (VNone :: _) _) as [[l g'] e'].
  rewrite Hl.
  apply (solo_is_direct n (entry f) xs out e Hd He fuel fuel budget 0 0 false
           (CallCreated RelayCreated) VNone (Some RelayCreated)
           (map tok xs ++ [VSentinel]));
    [lia|lia|lia|lia|reflexivity|].
  left. exists RelayCreated. auto.
Qed.

End Solo.

(** * Processors do not interfere *)

Section Isolation.
Context {T O : Type} {HT : PyValue T} {HO : PyValue O}.
Implicit Types (l : list (step T O)) (gens : list (slot T O)).
Implicit Types (pfs : list (asyncgen T (value T) -> asyncgen T O)).

Lemma advance_with_idx fuel : forall p i j aw (g : asyncgen T O) v,
  advance fuel p i j aw g v
  = (map (with_idx i) (fst (advance fuel p 0 j aw g v)),
     snd (advance fuel p 0 j aw g v)).
Proof.
  induction fuel as [|fuel IH]; intros p i j aw g v; [reflexivity|].
  simpl. destruct (send g v) as [o g'|g'| |x|]; try reflexivity.
  destruct (is_none o); [reflexivity|].
  rewrite (IH p i (S j) false g' VNone).
  destruct (advance fuel p 0 (S j) false g' VNone) as [l r]. reflexivity.
Qed.

Lemma map_with_idx_same i l :
  Forall (fun s => idx s = i) l -> map (with_idx i) l = l.
Proof.
  induction 1 as [|s l Hs _ IH]; [reflexivity|].
  simpl. rewrite IH. f_equal. destruct s; simpl in *. now subst.
Qed.

(** In a round that goes through, the steps of one slot and its state
    afterwards are those of the round over that slot alone. *)
Lemma for_processors_solo fuel p line gens : forall i0 l gens' k slot,
  for_processors fuel p i0 line gens = (l, gens', Completed) ->
  nth_error gens k = Some slot ->
  exists l0 slot',
    for_processors fuel p 0 line [slot] = (l0, [slot'], Completed)
    /\ filter (fun s => idx s =? i0 + k) l = map (with_idx (i0 + k)) l0
    /\ nth_error gens' k = Some slot'.
Proof.
  induction gens as [|sl rest IH]; intros i0 l gens' k slot H Hk.
  - destruct k; discriminate.
  - apply for_processors_cons_inv in H.
    destruct H as [(-> & rest' & Hr & ->)|(g & l1 & r & Hg & Ha & Hr)].
    + destruct k as [|k]; simpl in Hk.
      * inversion Hk; subst slot. exists [], Finished.
        split; [reflexivity|]. split; [|reflexivity].
        rewrite Nat.add_0_r. apply filter_idx_none.
        eapply Forall_impl; [|eapply for_processors_steps; eauto].
        intros s Hs. apply in_round_pos in Hs. lia.
      * destruct (IH _ _ _ _ _ Hr Hk) as (l0 & slot' & H0 & Hf & Hn).
        exists l0, slot'. replace (i0 + S k) with (S i0 + k) by lia. auto.
    + destruct r as [slot1|x|].
      2,3: destruct Hr as (_ & _ & ?); discriminate.
      destruct Hr as (l2 & rest' & Hr & -> & ->).
      pose proof (burst_steps _ _ _ _ _ _ _ (advance_burst _ _ _ _ _ _ _ _ _ Ha))
        as H1.
      assert (H1' : Forall (fun s => idx s = i0) l1).
      { eapply Forall_impl; [|exact H1]. intros s (_ & Hi & _). exact Hi. }
      assert (H2 : Forall (fun s => S i0 <= idx s) l2).
      { eapply Forall_impl; [|eapply for_processors_steps; eauto].
        intros s Hs. apply in_round_pos in Hs. lia. }
      destruct k as [|k]; simpl in Hk.
      * inversion Hk; subst sl. clear Hk.
        rewrite advance_with_idx in Ha.
        destruct (advance fuel p 0 0 (is_awaiting slot) g line) as [l10 r0] eqn:E0.
        simpl in Ha. inversion Ha; subst l1 r0. clear Ha.
        exists (l10 ++ []), slot1. split.
        -- destruct Hg as [-> | ->]; simpl in *; rewrite E0; reflexivity.
        -- split; [|reflexivity].
           rewrite Nat.add_0_r, app_nil_r, filter_app.
           rewrite (filter_idx_all i0 _ H1').
           rewrite (filter_idx_none i0 l2); [apply app_nil_r|].
           eapply Forall_impl; [|exact H2]. intros s Hs. simpl in Hs. lia.
      * destruct (IH _ _ _ _ _ Hr Hk) as (l0 & slot' & H0 & Hf & Hn).
        exists l0, slot'. split; [assumption|]. split; [|assumption].
        rewrite filter_app. rewrite (filter_idx_none (i0 + S k) l1).
        -- simpl. replace (i0 + S k) with (S i0 + k) by lia. assumption.
        -- eapply Forall_impl; [|exact H1']. intros s Hs. simpl in Hs. lia.
Qed.

Lemma for_lines_solo fuel feed : forall p gens l gens' k slot,
  for_lines fuel p feed gens = (l, gens', Completed) ->
  nth_error gens k = Some slot ->
  exists l0 slot',
    for_lines fuel p feed [slot] = (l0, [slot'], Completed)
    /\ filter (fun s => idx s =? k) l = map (with_idx k) l0
    /\ nth_error gens' k = Some slot'.
Proof.
  induction feed as [|line feed IH]; intros p gens l gens' k slot H Hk.
  - inversion H; subst. exists [], slot. auto.
  - apply for_lines_cons_inv in H.
    destruct H as (l1 & gens1 & e1 & Hr & H).
    destruct H as [(-> & l2 & Hl & ->)|(Hne & _ & _ & He)]; [|congruence].
    destruct (for_processors_solo _ _ _ _ _ _ _ _ _ Hr Hk)
      as (l10 & slot1 & H1 & Hf1 & Hn1).
    destruct (IH _ _ _ _ _ _ Hl Hn1) as (l20 & slot' & H2 & Hf2 & Hn2).
    exists (l10 ++ l20), slot'. split.
    + rewrite for_lines_cons, H1, H2. reflexivity.
    + split; [|assumption].
      simpl in Hf1. rewrite filter_app, map_app, Hf1, Hf2. reflexivity.
Qed.

(** A round, and a run, goes through when it does for every slot alone. *)
Lemma for_processors_together fuel p line gens : forall i0,
  (forall k slot, nth_error gens k = Some slot ->
                  exists l0 slot',
                    for_processors fuel p 0 line [slot]
                    = (l0, [slot'], Completed)) ->
  exists l gens', for_processors fuel p i0 line gens = (l, gens', Completed).
Proof.
  induction gens as [|sl rest IH]; intros i0 Hall.
  - exists [], []. reflexivity.
  - destruct (IH (S i0)) as (l2 & rest' & Hr).
    { intros k slot Hk. apply (Hall (S k) slot Hk). }
    destruct (Hall 0 sl eq_refl) as (l0 & slot' & H0).
    destruct sl as [g|g|]; simpl in H0 |- *.
    + rewrite (advance_with_idx fuel p i0).
      destruct (advance fuel p 0 0 false g line) as [l1 r].
      destruct r as [s1|x|]; try discriminate. simpl. rewrite Hr. eauto.
    + rewrite (advance_with_idx fuel p i0).
      destruct (advance fuel p 0 0 true g line) as [l1 r].
      destruct r as [s1|x|]; try discriminate. simpl. rewrite Hr. eauto.
    + rewrite Hr. eauto.
Qed.

Lemma for_lines_together fuel feed : forall p gens,
  (forall k slot, nth_error gens k = Some slot ->
                  exists l0 slot',
                    for_lines fuel p feed [slot] = (l0, [slot'], Completed)) ->
  exists l gens', for_lines fuel p feed gens = (l, gens', Completed).
Proof.
  induction feed as [|line feed IH]; intros p gens Hall.
  - exists [], gens. reflexivity.
  - assert (Hround : forall k slot, nth_error gens k = Some slot ->
              exists l1 slot1,
                for_processors fuel p 0 line [slot] = (l1, [slot1], Completed)
                /\ exists l2 slot2,
                     for_lines fuel (S p) feed [slot1]
                     = (l2, [slot2], Completed)).
    { intros k slot Hk. destruct (Hall k slot Hk) as (l0 & slot' & H0).
      apply for_lines_cons_inv in H0.
      destruct H0 as (l1 & gens1 & e1 & Hr & H0).
      destruct H0 as [(-> & l2 & Hl & ->)|(Hne & _ & _ & He)]; [|congruence].
      pose proof (for_processors_length _ _ _ _ _ _ _ _ Hr) as Hlen.
      destruct gens1 as [|slot1 [|? ?]]; try discriminate.
      exists l1, slot1. split; [assumption|]. eauto. }
    destruct (for_processors_together fuel p line gens 0) as (l1 & gens1 & Hr).
    { intros k slot Hk. destruct (Hround k slot Hk) as (la & sa & Ha & _).
      eauto. }
    destruct (IH (S p) gens1) as (l2 & gens' & Hl).
    { intros k slot1 Hk1.
      pose proof (for_processors_length _ _ _ _ _ _ _ _ Hr) as Hlen.
      assert (Hlt : k < length gens)
        by (rewrite <- Hlen; apply nth_error_Some; congruence).
      apply nth_error_Some in Hlt.
      destruct (nth_error gens k) as [slot|] eqn:Hk; [|congruence].
      destruct (Hround k slot Hk) as (la & sa & Ha & lb & sb & Hb).
      destruct (for_processors_solo _ _ _ _ _ _ _ _ _ Hr Hk)
        as (la' & sa' & Ha' & _ & Hn).
      rewrite Ha in Ha'. inversion Ha'; subst.
      rewrite Hk1 in Hn. inversion Hn; subst. eauto. }
    exists (l1 ++ l2), gens'. rewrite for_lines_cons, Hr, Hl. reflexivity.
Qed.

Lemma events_filter i l :
  filter (fun ev => fst ev =? i) (events l)
  = events (filter (fun s => idx s =? i) l).
Proof.
  induction l as [|s l IH]; [reflexivity|].
  change (events (s :: l)) with (event s ++ events l).
  rewrite filter_app, IH. simpl.
  unfold event at 1. destruct (resp s) as [o| | | | |] eqn:Hs; simpl.
  - destruct (idx s =? i).
    + change (events (s :: ?t)) with (event s ++ events t).
      unfold event. rewrite Hs. reflexivity.
    + reflexivity.
  - destruct (idx s =? i); [|reflexivity].
    change (events (s :: ?t)) with (event s ++ events t).
    unfold event. now rewrite Hs.
  - destruct (idx s =? i); [|reflexivity].
    change (events (s :: ?t)) with (event s ++ events t).
    unfold event. now rewrite Hs.
  - destruct (idx s =? i); [|reflexivity].
    change (events (s :: ?t)) with (event s ++ events t).
    unfold event. now rewrite Hs.
  - destruct (idx s =? i); [|reflexivity].
    change (events (s :: ?t)) with (event s ++ events t).
    unfold event. now rewrite Hs.
  - destruct (idx s =? i); [|reflexivity].
    change (events (s :: ?t)) with (event s ++ events t).
    unfold event. now rewrite Hs.
Qed.

Lemma events_with_idx i l :
  events (map (with_idx i) l) = map (fun ev => (i, snd ev)) (events l).
Proof.
  induction l as [|s l IH]; [reflexivity|].
  change (events (map (with_idx i) (s :: l)))
    with (event (with_idx i s) ++ events (map (with_idx i) l)).
  change (events (s :: l)) with (event s ++ events l).
  rewrite map_app, IH. f_equal.
  unfold event. simpl. destruct (resp s); reflexivity.
Qed.

Lemma initial_slots_nth pfs i pf :
  nth_error pfs i = Some pf ->
  nth_error (map (@Fresh T O) (map (fun p => p read_input_lines) pfs)) i
  = Some (Fresh (pf read_input_lines)).
Proof. intros H. rewrite nth_error_map, nth_error_map, H. reflexivity. Qed.

Lemma gather_isolated fuel pfs xs i pf :
  ending_of (gather_steps fuel pfs xs) = Completed ->
  nth_error pfs i = Some pf ->
  ending_of (gather_steps fuel [pf] xs) = Completed
  /\ filter (fun s => idx s =? i) (steps_of (gather_steps fuel pfs xs))
     = map (with_idx i) (steps_of (gather_steps fuel [pf] xs))
  /\ nth_error (slots_of (gather_steps fuel pfs xs)) i
     = nth_error (slots_of (gather_steps fuel [pf] xs)) 0.
Proof.
  unfold gather_steps, ending_of, steps_of, slots_of.
  destruct (for_lines fuel 0 (effective_feed xs)
              (map Fresh (map (fun p => p read_input_lines) pfs)))
    as [[l gens'] e] eqn:H.
  cbn [fst snd]. intros -> Hi.
  destruct (for_lines_solo _ _ _ _ _ _ _ _ H (initial_slots_nth _ _ _ Hi))
    as (l0 & slot' & H0 & Hf & Hn).
  cbn [map]. rewrite H0. cbn [fst snd nth_error]. auto.
Qed.

Lemma for_lines_slots_length fuel (feed : list (value T)) :
  forall p gens l gens' e,
  for_lines fuel p feed gens = (l, gens', e) -> length gens' = length gens.
Proof.
  induction feed as [|line feed IH]; intros p gens l gens' e H.
  - inversion H; subst. reflexivity.
  - apply for_lines_cons_inv in H.
    destruct H as (l1 & gens1 & e1 & Hr & H).
    apply for_processors_length in Hr.
    destruct H as [(-> & l2 & Hl & ->)|(_ & _ & -> & _)]; [|assumption].
    apply IH in Hl. congruence.
Qed.

Lemma gather_together fuel pfs xs :
  (forall i pf, nth_error pfs i = Some pf ->
                ending_of (gather_steps fuel [pf] xs) = Completed) ->
  ending_of (gather_steps fuel pfs xs) = Completed.
Proof.
  intros Hall. unfold gather_steps, ending_of.
  destruct (for_lines_together fuel (effective_feed xs) 0
              (map Fresh (map (fun p => p read_input_lines) pfs)))
    as (l & gens' & H).
  - intros k slot Hk.
    rewrite nth_error_map, nth_error_map in Hk.
    destruct (nth_error pfs k) as [pf|] eqn:E; [|discriminate].
    inversion Hk; subst slot.
    specialize (Hall k pf E). unfold gather_steps, ending_of in Hall.
    cbn [map] in Hall.
    destruct (for_lines fuel 0 (effective_feed xs) [Fresh (pf read_input_lines)])
      as [[l0 gens0] e0] eqn:H0.
    simpl in Hall. subst e0.
    pose proof (for_lines_slots_length _ _ _ _ _ _ _ H0) as Hlen.
    destruct gens0 as [|slot' [|? ?]]; try discriminate. eauto.
  - rewrite H. reflexivity.
Qed.

End Isolation.

(** * The two processors of the source *)

Lemma run_direct_S {I O} (f : agenfun I O) n s xs :
  run_direct f (S n) s xs
  = match code f s with
    | Yield o s' => let (os, e) := run_direct f n s' xs in (o :: os, e)
    | Anext k =>
        match xs with
        | [] => run_direct f n (k None) []
        | x :: rest => run_direct f n (k (Some x)) rest
        end
    | Return => ([], Completed)
    | Raise e => ([], Aborted e)
    end.
Proof. reflexivity. Qed.

Section ExclaimSpec.
Variable yelled : string -> string.

Lemma exclaim_direct_loop (lines : list string) : forall n s,
  code (exclaim_body yelled) s = Anext exclaim_for ->
  2 * length lines + 2 <= n ->
  run_direct (exclaim_body yelled) n s (map VTok lines)
  = (exclaimed yelled lines, Completed).
Proof.
  induction lines as [|line rest IH]; intros n s Hs Hn.
  - destruct n as [|[|n]]; [simpl in Hn; lia..|].
    rewrite run_direct_S, Hs. reflexivity.
  - cbn [length] in Hn.
    destruct n as [|[|n]]; [lia..|].
    rewrite run_direct_S, Hs. cbn [map exclaim_for].
    assert (Hg : String.eqb line "Goodbye!" = false ->
                 forall s', code (exclaim_body yelled) s' = exclaim_goodbye line ->
                 code (exclaim_body yelled) s' = Anext exclaim_for).
    { intros E s' ->. unfold exclaim_goodbye. now rewrite E. }
    rewrite run_direct_S. cbn [code exclaim_body exclaim_code exclaimed].
    destruct (endswith line "!") eqn:Ee.
    + destruct (String.eqb line "Goodbye!") eqn:Eg.
      * destruct n as [|n]; [lia|].
        rewrite run_direct_S. cbn [code exclaim_body exclaim_code].
        unfold exclaim_goodbye. rewrite Eg. reflexivity.
      * rewrite (IH n (ExclaimYelled line)); [reflexivity| |lia].
        apply Hg; [reflexivity|reflexivity].
    + unfold exclaim_goodbye at 1.
      destruct (String.eqb line "Goodbye!") eqn:Eg; [reflexivity|].
      exact (IH (S n) ExclaimFor eq_refl ltac:(lia)).
Qed.

Lemma exclaim_direct (lines : list string) n :
  2 * length lines + 3 <= n ->
  run_direct (exclaim_body yelled) n ExclaimEntry (map VTok lines)
  = ("Hello world!"%string :: exclaimed yelled lines, Completed).
Proof.
  intros Hn. destruct n as [|n]; [lia|].
  rewrite run_direct_S. cbn [code exclaim_body exclaim_code].
  rewrite exclaim_direct_loop; [reflexivity|reflexivity|lia].
Qed.

End ExclaimSpec.

(** ** [split] and the words of a line *)

Lemma split_on_length sep s :
  length (split_on sep s) = S (occurrences sep s).
Proof.
  induction s as [|c s IH]; [reflexivity|].
  cbn [split_on occurrences].
  destruct (Ascii.eqb c sep).
  - cbn [length]. rewrite IH. reflexivity.
  - destruct (split_on sep s) as [|part parts]; [discriminate IH|].
    cbn [length] in *. lia.
Qed.

Lemma split_on_two sep s :
  (exists first last, split_on sep s = [first; last])
  <-> occurrences sep s = 1.
Proof.
  pose proof (split_on_length sep s) as H. split.
  - intros (first & last & E). rewrite E in H. cbn [length] in H. lia.
  - intros E. rewrite E in H.
    destruct (split_on sep s) as [|first [|last [|? ?]]]; try discriminate H.
    eauto.
Qed.

Lemma split_on_chars sep s part c :
  In part (split_on sep s) -> In c (list_ascii_of_string part) -> c <> sep.
Proof.
  revert part. induction s as [|c' s IH]; intros part Hp Hc.
  - destruct Hp as [<-|[]]. destruct Hc.
  - cbn [split_on] in Hp. destruct (Ascii.eqb c' sep) eqn:E.
    + destruct Hp as [<-|Hp]; [destruct Hc|]. eauto.
    + apply Ascii.eqb_neq in E.
      destruct (split_on sep s) as [|p ps].
      * destruct Hp as [<-|[]]. destruct Hc as [<-|[]]. exact E.
      * destruct Hp as [<-|Hp].
        -- destruct Hc as [<-|Hc]; [exact E|]. apply (IH p); [now left|exact Hc].
        -- apply (IH part); [now right|exact Hc].
Qed.

Lemma words_word s w :
  In w (words s) ->
  w <> EmptyString
  /\ forall c, In c (list_ascii_of_string w) ->
       isspace c = false /\ In c (list_ascii_of_string s).
Proof.
  revert w. induction s as [|c s IH]; intros w Hw; [destruct Hw|].
  assert (Hone : w = String c EmptyString -> isspace c = false ->
                 w <> EmptyString
                 /\ forall c0, In c0 (list_ascii_of_string w) ->
                      isspace c0 = false
                      /\ In c0 (list_ascii_of_string (String c s))).
  { intros -> Hc. split; [discriminate|].
    intros c0 [<-|[]]. split; [exact Hc|now left]. }
  assert (Hrest : In w (words s) ->
                  w <> EmptyString
                  /\ forall c0, In c0 (list_ascii_of_string w) ->
                       isspace c0 = false
                       /\ In c0 (list_ascii_of_string (String c s))).
  { intros H. destruct (IH w H) as [Hn Hc]. split; [exact Hn|].
    intros c0 H0. destruct (Hc c0 H0). split; [assumption|now right]. }
  cbn [words] in Hw. destruct (isspace c) eqn:Ec; [now apply Hrest|].
  destruct s as [|c' s'].
  - destruct Hw as [<-|[]]. now apply Hone.
  - destruct (isspace c') eqn:Ec'.
    + destruct Hw as [<-|Hw]; [now apply Hone|now apply Hrest].
    + destruct (words (String c' s')) as [|w0 ws] eqn:Ew.
      * destruct Hw as [<-|[]]. now apply Hone.
      * destruct Hw as [<-|Hw].
        -- split; [discriminate|].
           intros c0 [<-|H0]; [split; [exact Ec|now left]|].
           destruct (IH w0 (or_introl eq_refl)) as [_ Hc].
           destruct (Hc c0 H0). split; [assumption|now right].
        -- apply Hrest. now right.
Qed.

Lemma last_error_In {A} (l : list A) x : last_error l = Some x -> In x l.
Proof.
  unfold last_error. intros H. apply in_rev.
  destruct (rev l); inversion H. now left.
Qed.

Lemma hd_error_In {A} (l : list A) x : hd_error l = Some x -> In x l.
Proof. destruct l; inversion 1. now left. Qed.

Lemma credentials_clean line username password :
  credentials line = Some (username, password) ->
  clean username /\ clean password.
Proof.
  unfold credentials. intros H.
  destruct (split_on ":" line) as [|first [|last [|? ?]]] eqn:Es;
    try discriminate H.
  destruct (last_error (words first)) as [u|] eqn:Eu; [|discriminate H].
  destruct (hd_error (words last)) as [p|] eqn:Ep; [|discriminate H].
  inversion H; subst u p.
  apply last_error_In in Eu. apply hd_error_In in Ep.
  destruct (words_word _ _ Eu) as [Hu Hcu].
  destruct (words_word _ _ Ep) as [Hp Hcp].
  split; (split; [assumption|]); apply Forall_forall; intros c Hc.
  - destruct (Hcu c Hc) as [Hs Hin]. split; [exact Hs|].
    apply (split_on_chars ":" line first); [rewrite Es; now left|exact Hin].
  - destruct (Hcp c Hc) as [Hs Hin]. split; [exact Hs|].
    apply (split_on_chars ":" line last);
      [rewrite Es; right; now left|exact Hin].
Qed.

Lemma credentials_one_colon line :
  credentials line <> None -> one_colon line = true.
Proof.
  unfold credentials, one_colon. intros H. apply Nat.eqb_eq.
  apply split_on_two.
  destruct (split_on ":" line) as [|first [|last [|? ?]]];
    try (now destruct H). eauto.
Qed.

(** ** [count_passwords_async_iterable] over a list *)

Lemma count_direct_loop (lines : list string) : forall count n s,
  code count_passwords_body s = Anext (count_for count) ->
  3 * length lines + 4 <= n ->
  run_direct count_passwords_body n s (map VTok lines)
  = passwords count lines.
Proof.
  induction lines as [|line rest IH]; intros count n s Hs Hn.
  - destruct n as [|[|[|[|n]]]]; [simpl in Hn; lia..|].
    rewrite run_direct_S, Hs. reflexivity.
  - cbn [length] in Hn.
    destruct n as [|[|n]]; [lia..|].
    rewrite run_direct_S, Hs. cbn [map count_for].
    cbn [passwords].
    destruct (split_on ":" line) as [|first [|last [|? ?]]] eqn:Es;
      try (apply (IH count (S n) (CountLine count (VTok line)));
           [cbn [code count_passwords_body count_code]; rewrite Es;
            reflexivity|lia]).
    rewrite run_direct_S. cbn [code count_passwords_body count_code].
    rewrite Es.
    destruct (last_error (words first)) as [username|]; [|reflexivity].
    destruct n as [|n]; [lia|].
    rewrite run_direct_S. cbn [code count_passwords_body count_code].
    destruct (hd_error (words last)) as [password|]; [|reflexivity].
    rewrite (IH (S count) n (CountFor (S count))); [|reflexivity|lia].
    destruct (passwords (S count) rest). reflexivity.
Qed.

Lemma count_direct (lines : list string) n :
  3 * length lines + 4 <= n ->
  run_direct count_passwords_body n (CountFor 0) (map VTok lines)
  = passwords 0 lines.
Proof. intros Hn. now apply count_direct_loop. Qed.

Lemma passwords_ending count lines : snd (passwords count lines) <> Unfinished.
Proof.
  revert count. induction lines as [|line rest IH]; intros count;
    [discriminate|].
  cbn [passwords].
  destruct (split_on ":" line) as [|first [|last [|? ?]]]; try apply IH.
  destruct (last_error (words first)); [|discriminate].
  destruct (hd_error (words last)); [|discriminate].
  specialize (IH (S count)). destruct (passwords (S count) rest). exact IH.
Qed.

Lemma passwords_well_formed lines : forall count,
  Forall well_formed lines ->
  passwords count lines
  = (flat_map entries lines
     ++ ["Total number of passwords:"%string;
         str (count + length (filter one_colon lines))], Completed).
Proof.
  induction lines as [|line rest IH]; intros count Hwf.
  - cbn. now rewrite Nat.add_0_r.
  - inversion Hwf as [|? ? Hl Hrest]; subst.
    cbn [passwords flat_map filter].
    unfold well_formed in Hl. unfold entries at 1.
    destruct (one_colon line) eqn:Eo.
    + specialize (Hl eq_refl). unfold credentials in *.
      destruct (split_on ":" line) as [|first [|last [|? ?]]];
        try (now destruct Hl).
      destruct (last_error (words first)) as [u|]; [|now destruct Hl].
      destruct (hd_error (words last)) as [p|]; [|now destruct Hl].
      rewrite (IH (S count) Hrest). cbn [length app].
      now rewrite Nat.add_succ_r.
    + assert (Hc : credentials line = None).
      { destruct (credentials line) eqn:Ec; [|reflexivity].
        rewrite credentials_one_colon in Eo; [discriminate|].
        now rewrite Ec. }
      rewrite Hc. unfold credentials in Hc.
      destruct (split_on ":" line) as [|first [|last [|? ?]]] eqn:Es;
        try apply (IH count Hrest).
      exfalso. unfold one_colon in Eo. apply Nat.eqb_neq in Eo. apply Eo.
      apply split_on_two. rewrite Es. eauto.
Qed.

Lemma passwords_app good rest : forall count,
  Forall well_formed good ->
  passwords count (good ++ rest)
  = (flat_map entries good
     ++ fst (passwords (count + length (filter one_colon good)) rest),
     snd (passwords (count + length (filter one_colon good)) rest)).
Proof.
  induction good as [|line good IH]; intros count Hwf.
  - cbn. rewrite Nat.add_0_r. now destruct (passwords count rest).
  - inversion Hwf as [|? ? Hl Hrest]; subst.
    cbn [app passwords flat_map filter].
    unfold well_formed in Hl. unfold entries at 1.
    destruct (one_colon line) eqn:Eo.
    + specialize (Hl eq_refl). unfold credentials in *.
      destruct (split_on ":" line) as [|first [|last [|? ?]]];
        try (now destruct Hl).
      destruct (last_error (words first)) as [u|]; [|now destruct Hl].
      destruct (hd_error (words last)) as [p|]; [|now destruct Hl].
      rewrite (IH (S count) Hrest). cbn [length app].
      now rewrite Nat.add_succ_r.
    + assert (Hc : credentials line = None).
      { destruct (credentials line) eqn:Ec; [|reflexivity].
        rewrite credentials_one_colon in Eo; [discriminate|].
        now rewrite Ec. }
      rewrite Hc. unfold credentials in Hc.
      destruct (split_on ":" line) as [|first [|last [|? ?]]] eqn:Es;
        try apply (IH count Hrest).
      exfalso. unfold one_colon in Eo. apply Nat.eqb_neq in Eo. apply Eo.
      apply split_on_two. rewrite Es. eauto.
Qed.

Lemma passwords_lines lines : forall count o,
  In o (fst (passwords count lines)) ->
  (exists w, clean w
             /\ (o = ("Username: " ++ w)%string
                 \/ o = ("Password: " ++ w)%string))
  \/ o = "Total number of passwords:"%string
  \/ exists count', o = str count'.
Proof.
  induction lines as [|line rest IH]; intros count o Ho.
  - destruct Ho as [<-|[<-|[]]]; eauto.
  - cbn [passwords] in Ho.
    destruct (split_on ":" line) as [|first [|last [|? ?]]] eqn:Es;
      try (now apply (IH count)).
    destruct (last_error (words first)) as [u|] eqn:Eu; [|destruct Ho].
    assert (Hu : clean u).
    { apply last_error_In in Eu. destruct (words_word _ _ Eu) as [Hu Hcu].
      split; [exact Hu|]. apply Forall_forall. intros c Hc.
      destruct (Hcu c Hc) as [Hs Hin]. split; [exact Hs|].
      apply (split_on_chars ":" line first); [rewrite Es; now left|exact Hin]. }
    destruct (hd_error (words last)) as [p|] eqn:Ep.
    + assert (Hp : clean p).
      { apply hd_error_In in Ep. destruct (words_word _ _ Ep) as [Hp Hcp].
        split; [exact Hp|]. apply Forall_forall. intros c Hc.
        destruct (Hcp c Hc) as [Hs Hin]. split; [exact Hs|].
        apply (split_on_chars ":" line last);
          [rewrite Es; right; now left|exact Hin]. }
      destruct (passwords (S count) rest) as [out e] eqn:Er.
      destruct Ho as [<-|[<-|Ho]]; [left; eauto..|].
      apply (IH (S count)). rewrite Er. exact Ho.
    + destruct Ho as [<-|[]]. left; eauto.
Qed.

Lemma exclaimed_goodbye yelled before after :
  exclaimed yelled (before ++ "Goodbye!"%string :: after)
  = exclaimed yelled (before ++ ["Goodbye!"%string]).
Proof.
  induction before as [|line before IH]; [reflexivity|].
  cbn [app exclaimed]. now rewrite IH.
Qed.

(** ** The decorated functions on plain lists and behind the scheduler *)

Lemma up_to_none_string (out : list string) (e : ending) :
  up_to_none out e = (out, e).
Proof.
  induction out as [|o out IH]; [reflexivity|].
  cbn [up_to_none]. change (is_none o) with false. now rewrite IH.
Qed.

Lemma iterate_plain_direct {T I O} {HO : PyValue O} (f : agenfun I O)
    (xs0 : list I) (budget n : nat) out e :
  run_direct f n (entry f) xs0 = (out, e) -> e <> Unfinished ->
  n <= budget ->
  forall fuel, n < fuel ->
  iterate fuel (syncgenerator (T:=T) budget f (PlainIterable xs0))
  = up_to_none out e.
Proof.
  intros Hd He Hb [|fuel] Hfuel; [lia|].
  change (iterate (S fuel) _)
    with (unwrap_aiter (S fuel) (call f (@wrap_aiter T I xs0) budget)).
  rewrite unwrap_aiter_S.
  apply (@direct_in_bridged T I O HO f xs0 budget n (entry f)
           (Some (WrapCreated xs0)) out e Hd He); lia.
Qed.

Lemma iterate_plain_strings {T I} (f : agenfun I string) (xs0 : list I)
    (budget n : nat) out e :
  run_direct f n (entry f) xs0 = (out, e) -> e <> Unfinished ->
  n <= budget ->
  forall fuel, n < fuel ->
  iterate fuel (syncgenerator (T:=T) budget f (PlainIterable xs0)) = (out, e).
Proof.
  intros Hd He Hb fuel Hfuel. rewrite <- (up_to_none_string out e).
  now apply (iterate_plain_direct f xs0 budget n).
Qed.

Lemma gather_solo_strings (f : agenfun (value string) string)
    (budget n : nat) (lines : list string) out e fuel :
  run_direct f n (entry f) (map VTok lines) = (out, e) -> e <> Unfinished ->
  n <= budget -> n < fuel ->
  gather_processors fuel [fun it => call f it budget] lines
  = (map (pair 0) out, e).
Proof.
  intros Hd He Hb Hfuel.
  pose proof (gather_solo_is_direct f budget n lines out e fuel Hd He Hb Hfuel)
    as H.
  now rewrite up_to_none_string in H.
Qed.

Lemma up_to_none_completed {A} {HA : PyValue A} (out : list A) (e : ending) :
  snd (up_to_none out e) = Completed ->
  fst (up_to_none out e) = out /\ e = Completed.
Proof.
  induction out as [|o out IH]; cbn [up_to_none].
  - simpl. auto.
  - destruct (is_none o); [discriminate|].
    destruct (up_to_none out e) as [os e']. simpl in *.
    intros H. destruct (IH H) as [-> ->]. auto.
Qed.

Lemma gather_body_events {T O} {HT : PyValue T} {HO : PyValue O}
    (f : agenfun (value T) O) (budget fuel : nat)
    (pfs : list (asyncgen T (value T) -> asyncgen T O)) (xs : list T)
    (i n : nat) out e :
  ending_of (gather_steps fuel pfs xs) = Completed ->
  nth_error pfs i = Some (fun it => call f it budget) ->
  run_direct f n (entry f) (map tok xs) = (out, e) -> e <> Unfinished ->
  n <= budget -> n < fuel ->
  filter (fun ev => fst ev =? i) (fst (gather_processors fuel pfs xs))
  = map (pair i) out
  /\ e = Completed.
Proof.
  intros Hc Hi Hd He Hb Hfuel.
  destruct (gather_isolated fuel pfs xs i _ Hc Hi) as (Hs & Hf & _).
  pose proof (gather_solo_is_direct f budget n xs out e fuel Hd He Hb Hfuel)
    as Hsolo.
  rewrite gather_events in Hsolo. inversion Hsolo as [[Hev Hend]].
  rewrite Hs in Hend. symmetry in Hend.
  destruct (up_to_none_completed out e Hend) as [Hout ->].
  split; [|reflexivity].
  rewrite gather_events. cbn [fst].
  rewrite events_filter, Hf, events_with_idx, Hev, Hout, map_map.
  reflexivity.
Qed.

Lemma print_events_in_range names evs e :
  (forall ev, In ev evs -> fst ev < length names) ->
  print_events names evs e
  = (map (fun ev =>
            ("From " ++ nth (fst ev) names EmptyString ++ ": " ++ snd ev)%string)
       evs, e).
Proof.
  induction evs as [|ev evs IH]; intros H; [reflexivity|].
  cbn [print_events map].
  rewrite IH by (intros; apply H; now right).
  assert (Hlt : fst ev < length names) by (apply H; now left).
  unfold report.
  rewrite (nth_error_nth' names EmptyString Hlt). reflexivity.
Qed.

Lemma gather_event_index {T O} {HT : PyValue T} {HO : PyValue O} fuel
    (pfs : list (asyncgen T (value T) -> asyncgen T O)) xs ev :
  In ev (fst (gather_processors fuel pfs xs)) -> fst ev < length pfs.
Proof.
  rewrite gather_events. cbn [fst]. unfold events. intros H.
  apply in_flat_map in H. destruct H as (s & Hs & Hev).
  apply gather_step in Hs. destruct Hs as (_ & Hi & _).
  unfold event in Hev. destruct (resp s); try contradiction.
  destruct Hev as [<-|[]]. exact Hi.
Qed.

Lemma count_run (lines : list string) (k b : nat) :
  iterate (S (3 * length lines + 4) + k)
    (count_passwords_async_iterable (3 * length lines + 4 + b)
       (PlainIterable (map VTok lines)))
  = passwords 0 lines.
Proof.
  destruct (passwords 0 lines) as [out e] eqn:E.
  apply (iterate_plain_strings count_passwords_body (map VTok lines)
           _ (3 * length lines + 4) out e); [| |lia..].
  - rewrite count_direct by lia. exact E.
  - pose proof (passwords_ending 0 lines) as H. now rewrite E in H.
Qed.

Lemma solo_completed {T O} {HT : PyValue T} {HO : PyValue O} fuel (pf : asyncgen T (value T) -> asyncgen T O)
    xs evs :
  gather_processors fuel [pf] xs = (evs, Completed) ->
  ending_of (gather_steps fuel [pf] xs) = Completed.
Proof. rewrite gather_events. now inversion 1. Qed.

(** * Further properties of the drivers and of the two processors *)

(** X2: behind the scheduler alone, an async generator function yields what
    its body yields when it is executed directly over the input, each output
    tagged 0, up to the first output that is [None]; the run ends as the
    body does, by completion or by the same exception, or at an output
    [None] with the [IndexError] of [exn.args[0]]. *)
Theorem multiplex_one_is_direct {T O} {HT : PyValue T} {HO : PyValue O}
    (f : agenfun (value T) O)
    (budget n fuel : nat) (xs : list T) (out : list O) (e : ending) :
  run_direct f n (entry f) (map tok xs) = (out, e) -> e <> Unfinished ->
  n <= budget -> n < fuel ->
  gather_processors fuel [fun it => call f it budget] xs
  = (map (pair 0) (fst (up_to_none out e)), snd (up_to_none out e)).
Proof. apply gather_solo_is_direct. Qed.

(** X2 at [exclaim_async_iterable] and the [input_lines] of the source. *)
Lemma multiplex_one_is_direct_witness :
  gather_processors 16 [fun it => call (exclaim_body someone_yelled) it 15]
    input_lines
  = (map (pair 0)
       ["Hello world!"; "Someone yelled 'Hello!'";
        "Someone yelled 'Hello again!'"; "Someone yelled 'Goodbye!'"]%string,
     Completed).
Proof.
  assert (He : Completed <> Unfinished) by discriminate.
  assert (Hb : 15 <= 15) by lia.
  assert (Hf : 15 < 16) by lia.
  exact (multiplex_one_is_direct (exclaim_body someone_yelled) 15 15 16
           input_lines
           ["Hello world!"; "Someone yelled 'Hello!'";
            "Someone yelled 'Hello again!'";
            "Someone yelled 'Goodbye!'"]%string Completed
           eq_refl He Hb Hf).
Defined.

(** X3: processors do not interfere.  In a run that completes, the steps of
    processor [i], and so the events tagged [i], are those of the run of
    that processor alone over the same input, which completes too and
    leaves the processor in the same state. *)
Theorem processors_do_not_interfere {T O} {HT : PyValue T} {HO : PyValue O}
    (fuel : nat)
    (pfs : list (asyncgen T (value T) -> asyncgen T O)) (xs : list T)
    (i : nat) (pf : asyncgen T (value T) -> asyncgen T O) :
  ending_of (gather_steps fuel pfs xs) = Completed ->
  nth_error pfs i = Some pf ->
  snd (gather_processors fuel [pf] xs) = Completed
  /\ filter (fun s => idx s =? i) (steps_of (gather_steps fuel pfs xs))
     = map (with_idx i) (steps_of (gather_steps fuel [pf] xs))
  /\ filter (fun ev => fst ev =? i) (fst (gather_processors fuel pfs xs))
     = map (fun ev => (i, snd ev)) (fst (gather_processors fuel [pf] xs))
  /\ nth_error (slots_of (gather_steps fuel pfs xs)) i
     = nth_error (slots_of (gather_steps fuel [pf] xs)) 0.
Proof.
  intros Hc Hi.
  destruct (gather_isolated fuel pfs xs i pf Hc Hi) as (Hs & Hf & Hn).
  rewrite !gather_events. cbn [fst snd].
  rewrite events_filter, Hf, events_with_idx. auto.
Qed.

(** X3 at [exclaim_async_iterable] next to a processor that never
    returns. *)
Lemma processors_do_not_interfere_witness :
  snd (gather_processors 2 [exclaim_processor someone_yelled 2] input_lines)
  = Completed
  /\ filter (fun s => idx s =? 0)
       (steps_of (gather_steps 2 exclaim_and_stubborn input_lines))
     = map (with_idx 0)
         (steps_of
            (gather_steps 2 [exclaim_processor someone_yelled 2] input_lines))
  /\ filter (fun ev => fst ev =? 0)
       (fst (gather_processors 2 exclaim_and_stubborn input_lines))
     = map (fun ev => (0, snd ev))
         (fst (gather_processors 2 [exclaim_processor someone_yelled 2]
                 input_lines))
  /\ nth_error (slots_of (gather_steps 2 exclaim_and_stubborn input_lines)) 0
     = nth_error
         (slots_of
            (gather_steps 2 [exclaim_processor someone_yelled 2] input_lines))
         0.
Proof.
  apply (processors_do_not_interfere 2 exclaim_and_stubborn input_lines 0
           (exclaim_processor someone_yelled 2));
    reflexivity.
Defined.

(** X4: a run of several processors completes exactly when the run of each
    of them alone, over the same input and with the same fuel, completes. *)
Theorem completes_iff_each_alone {T O} {HT : PyValue T} {HO : PyValue O}
    (fuel : nat)
    (pfs : list (asyncgen T (value T) -> asyncgen T O)) (xs : list T) :
  snd (gather_processors fuel pfs xs) = Completed
  <-> (forall i pf, nth_error pfs i = Some pf ->
                    snd (gather_processors fuel [pf] xs) = Completed).
Proof.
  rewrite gather_events. cbn [snd]. split.
  - intros Hc i pf Hi. rewrite gather_events. cbn [snd].
    apply (gather_isolated fuel pfs xs i pf Hc Hi).
  - intros Hall. apply gather_together. intros i pf Hi.
    specialize (Hall i pf Hi). rewrite gather_events in Hall. exact Hall.
Qed.

(** X5: in a run that completes, the events of a processor that is an async
    generator function are the outputs of the direct execution of its body
    over the input, in order and tagged with the index of the processor; the
    body has completed. *)
Theorem multiplexed_body_is_direct {T O} {HT : PyValue T} {HO : PyValue O}
    (f : agenfun (value T) O)
    (budget fuel : nat)
    (pfs : list (asyncgen T (value T) -> asyncgen T O)) (xs : list T)
    (i n : nat) (out : list O) (e : ending) :
  snd (gather_processors fuel pfs xs) = Completed ->
  nth_error pfs i = Some (fun it => call f it budget) ->
  run_direct f n (entry f) (map tok xs) = (out, e) -> e <> Unfinished ->
  n <= budget -> n < fuel ->
  filter (fun ev => fst ev =? i) (fst (gather_processors fuel pfs xs))
  = map (pair i) out
  /\ e = Completed.
Proof.
  intros Hc. rewrite gather_events in Hc. cbn [snd] in Hc.
  now apply gather_body_events.
Qed.

(** X5 at [exclaim_async_iterable] after a processor that never returns. *)
Lemma multiplexed_body_is_direct_witness :
  filter (fun ev => fst ev =? 1)
    (fst (gather_processors 16
            [fun _ => stubborn;
             fun it => call (exclaim_body someone_yelled) it 15]
            input_lines))
  = map (pair 1)
      ["Hello world!"; "Someone yelled 'Hello!'";
       "Someone yelled 'Hello again!'"; "Someone yelled 'Goodbye!'"]%string
  /\ Completed = Completed.
Proof.
  apply (multiplexed_body_is_direct (exclaim_body someone_yelled) 15 16
           [fun _ => stubborn;
            fun it => call (exclaim_body someone_yelled) it 15]
           input_lines 1 15);
    [reflexivity|reflexivity|reflexivity|discriminate|lia|lia].
Defined.

(** X6: [exclaim_async_iterable] over any lines.  On a list it returns
    ['Hello world!'] and then one line for each input line that ends in
    ['!'], up to and with the first ['Goodbye!'], and completes; behind the
    scheduler alone it yields the same, tagged 0.  What follows the first
    ['Goodbye!'] has no effect. *)
Theorem exclaim_on_lines (yelled : string -> string) (lines : list string)
    (k b : nat) :
  iterate (S (2 * length lines + 3) + k)
    (exclaim_async_iterable yelled (2 * length lines + 3 + b)
       (PlainIterable (map VTok lines)))
  = ("Hello world!"%string :: exclaimed yelled lines, Completed)
  /\ gather_processors (S (2 * length lines + 3) + k)
       [exclaim_processor yelled (2 * length lines + 3 + b)] lines
     = (map (pair 0) ("Hello world!"%string :: exclaimed yelled lines),
        Completed)
  /\ (forall before after,
        lines = before ++ "Goodbye!"%string :: after ->
        exclaimed yelled lines
        = exclaimed yelled (before ++ ["Goodbye!"%string])).
Proof.
  assert (Hd : run_direct (exclaim_body yelled) (2 * length lines + 3)
                 (entry (exclaim_body yelled)) (map VTok lines)
               = ("Hello world!"%string :: exclaimed yelled lines, Completed))
    by (apply exclaim_direct; lia).
  split; [|split].
  - apply (iterate_plain_strings (exclaim_body yelled) (map VTok lines)
             _ (2 * length lines + 3)); [exact Hd|discriminate|lia..].
  - apply (gather_solo_strings (exclaim_body yelled) _
             (2 * length lines + 3)); [exact Hd|discriminate|lia..].
  - intros before after ->. apply exclaimed_goodbye.
Qed.

(** X7: [count_passwords_async_iterable] over lines of which each one with
    one colon has a word on both sides of it.  It returns, for each line
    with one colon, the last word before the colon as username and the first
    word after it as password, then the total, which is the number of lines
    with one colon; the other lines are skipped.  Behind the scheduler alone
    it yields the same, tagged 0. *)
Theorem count_passwords_on_lines (lines : list string) (k b : nat) :
  Forall well_formed lines ->
  iterate (S (3 * length lines + 4) + k)
    (count_passwords_async_iterable (3 * length lines + 4 + b)
       (PlainIterable (map VTok lines)))
  = (flat_map entries lines
     ++ ["Total number of passwords:"%string;
         str (length (filter one_colon lines))], Completed)
  /\ gather_processors (S (3 * length lines + 4) + k)
       [count_passwords_processor (3 * length lines + 4 + b)] lines
     = (map (pair 0)
          (flat_map entries lines
           ++ ["Total number of passwords:"%string;
               str (length (filter one_colon lines))]), Completed).
Proof.
  intros Hwf.
  pose proof (passwords_well_formed lines 0 Hwf) as Hp. cbn [Nat.add] in Hp.
  split.
  - rewrite count_run. exact Hp.
  - apply (gather_solo_strings count_passwords_body _
             (3 * length lines + 4)); [|discriminate|lia..].
    rewrite <- Hp. apply count_direct. lia.
Qed.

(** X7 at the [input_lines] of the source. *)
Lemma count_passwords_on_lines_witness :
  iterate 23
    (count_passwords_async_iterable 22 (PlainIterable (map VTok input_lines)))
  = (["Username: foo"; "Password: bar"; "Username: hello"; "Password: world";
      "Total number of passwords:"; "2"]%string, Completed)
  /\ gather_processors 23 [count_passwords_processor 22] input_lines
     = ([(0, "Username: foo"); (0, "Password: bar"); (0, "Username: hello");
         (0, "Password: world"); (0, "Total number of passwords:");
         (0, "2")]%string, Completed).
Proof.
  apply (count_passwords_on_lines input_lines 0 0).
  repeat constructor; intros H; vm_compute in H; try discriminate H;
    vm_compute; discriminate.
Defined.

(** X8: a line with one colon and no word on one side of it ends
    [count_passwords_async_iterable] with [IndexError].  After the entries
    of the lines before it, nothing more is returned when there is no word
    before the colon; when there is one and no word after the colon, the
    line ['Username: u'] is returned, [u] the last word before the colon of
    that line, and nothing more.  The total is not returned and the later
    lines have no effect. *)
Theorem count_passwords_index_error (good : list string)
    (bad first last : string) (rest : list string) (k b : nat) :
  Forall well_formed good ->
  split_on ":" bad = [first; last] ->
  last_error (words first) = None \/ hd_error (words last) = None ->
  iterate (S (3 * length (good ++ bad :: rest) + 4) + k)
    (count_passwords_async_iterable
       (3 * length (good ++ bad :: rest) + 4 + b)
       (PlainIterable (map VTok (good ++ bad :: rest))))
  = (flat_map entries good
     ++ match last_error (words first) with
        | Some username => [("Username: " ++ username)%string]
        | None => []
        end,
     Aborted IndexError).
Proof.
  intros Hgood Es Hmissing.
  rewrite count_run, (passwords_app good (bad :: rest) 0 Hgood).
  cbn [passwords]. rewrite Es.
  destruct (last_error (words first)) as [username|]; [|reflexivity].
  destruct Hmissing as [Hm|Hm]; [discriminate Hm|].
  rewrite Hm. reflexivity.
Qed.

(** X8 at a line without password and at a line without username. *)
Lemma count_passwords_index_error_witness :
  iterate 14
    (count_passwords_async_iterable 13
       (PlainIterable (map VTok ["a:b"; " c:"; "d:e"]%string)))
  = (["Username: a"; "Password: b"; "Username: c"]%string,
     Aborted IndexError)
  /\ iterate 14
       (count_passwords_async_iterable 13
          (PlainIterable (map VTok ["a:b"; " : x"; "d:e"]%string)))
     = (["Username: a"; "Password: b"]%string, Aborted IndexError).
Proof.
  assert (Hgood : Forall well_formed ["a:b"%string])
    by (repeat constructor; intros _; vm_compute; discriminate).
  split.
  - apply (count_passwords_index_error ["a:b"%string] " c:"%string
             " c"%string EmptyString ["d:e"%string] 0 0 Hgood);
      [reflexivity|right; reflexivity].
  - apply (count_passwords_index_error ["a:b"%string] " : x"%string
             " "%string " x"%string ["d:e"%string] 0 0 Hgood);
      [reflexivity|left; reflexivity].
Defined.

(** X9: every line [count_passwords_async_iterable] returns, on any lines
    and whether it completes or not, is a username or a password that is
    not empty and has neither whitespace nor colon, or the line of the
    total, or a number. *)
Theorem count_passwords_fields_clean (lines : list string) (k b : nat)
    (o : string) :
  In o (fst (iterate (S (3 * length lines + 4) + k)
               (count_passwords_async_iterable (3 * length lines + 4 + b)
                  (PlainIterable (map VTok lines))))) ->
  (exists w, clean w
             /\ (o = ("Username: " ++ w)%string
                 \/ o = ("Password: " ++ w)%string))
  \/ o = "Total number of passwords:"%string
  \/ exists count, o = str count.
Proof. rewrite count_run. apply passwords_lines. Qed.

(** X9 at a username of the [input_lines] of the source. *)
Lemma count_passwords_fields_clean_witness :
  (exists w, clean w
             /\ ("Username: hello"%string = ("Username: " ++ w)%string
                 \/ "Username: hello"%string = ("Password: " ++ w)%string))
  \/ "Username: hello"%string = "Total number of passwords:"%string
  \/ exists count, "Username: hello"%string = str count.
Proof.
  apply (count_passwords_fields_clean input_lines 0 0).
  vm_compute. tauto.
Defined.

(** X10: the run of the source's two processors over lines of which each
    one with one colon has a word on both sides of it.  It completes; the
    events tagged 0 are the lines [count_passwords_async_iterable] returns
    for the list, those tagged 1 the lines [exclaim_async_iterable] returns
    for it, and the loop over the events prints one line for each event and
    ends without exception. *)
Theorem script_output (lines : list string) (k b : nat) :
  Forall well_formed lines ->
  let run :=
    gather_processors (S (3 * length lines + 4 + b) + k)
      (processor_functions (3 * length lines + 4 + b)) lines in
  snd run = Completed
  /\ filter (fun ev => fst ev =? 0) (fst run)
     = map (pair 0)
         (flat_map entries lines
          ++ ["Total number of passwords:"%string;
              str (length (filter one_colon lines))])
  /\ filter (fun ev => fst ev =? 1) (fst run)
     = map (pair 1) ("Hello world!"%string :: exclaimed someone_yelled lines)
  /\ print_events processor_names (fst run) (snd run)
     = (map (fun ev =>
               ("From " ++ nth (fst ev) processor_names EmptyString
                ++ ": " ++ snd ev)%string) (fst run), Completed).
Proof.
  intros Hwf run.
  set (budget := 3 * length lines + 4 + b) in *.
  set (fuel := S budget + k) in *.
  pose proof (passwords_well_formed lines 0 Hwf) as Hp. cbn [Nat.add] in Hp.
  assert (Hd0 : run_direct count_passwords_body (3 * length lines + 4)
                  (entry count_passwords_body) (map VTok lines)
                = (flat_map entries lines
                   ++ ["Total number of passwords:"%string;
                       str (length (filter one_colon lines))], Completed))
    by (rewrite <- Hp; apply count_direct; lia).
  assert (Hd1 : run_direct (exclaim_body someone_yelled)
                  (2 * length lines + 3)
                  (entry (exclaim_body someone_yelled)) (map VTok lines)
                = ("Hello world!"%string :: exclaimed someone_yelled lines,
                   Completed))
    by (apply exclaim_direct; lia).
  assert (Hc : ending_of (gather_steps fuel (processor_functions budget) lines)
               = Completed).
  { apply gather_together. intros [|[|i]] pf Hi.
    - inversion Hi; subst pf. eapply solo_completed.
      apply (gather_solo_strings count_passwords_body budget
               (3 * length lines + 4) lines _ _ fuel Hd0);
        [discriminate|unfold budget; lia|unfold fuel, budget; lia].
    - inversion Hi; subst pf. eapply solo_completed.
      apply (gather_solo_strings (exclaim_body someone_yelled) budget
               (2 * length lines + 3) lines _ _ fuel Hd1);
        [discriminate|unfold budget; lia|unfold fuel, budget; lia].
    - destruct i; discriminate Hi. }
  assert (He : snd run = Completed).
  { unfold run. rewrite gather_events. exact Hc. }
  split; [exact He|]. split; [|split].
  - apply (gather_body_events count_passwords_body budget fuel
             (processor_functions budget) lines 0 (3 * length lines + 4)
             _ Completed Hc eq_refl Hd0);
      [discriminate|unfold budget; lia|unfold fuel, budget; lia].
  - apply (gather_body_events (exclaim_body someone_yelled) budget fuel
             (processor_functions budget) lines 1 (2 * length lines + 3)
             _ Completed Hc eq_refl Hd1);
      [discriminate|unfold budget; lia|unfold fuel, budget; lia].
  - rewrite He. apply print_events_in_range. intros ev Hev.
    apply (gather_event_index fuel (processor_functions budget) lines ev Hev).
Qed.

(** X10 at the [input_lines] of the source: what the script prints. *)
Lemma script_output_witness :
  snd (gather_processors 23 (processor_functions 22) input_lines) = Completed
  /\ filter (fun ev => fst ev =? 0)
       (fst (gather_processors 23 (processor_functions 22) input_lines))
     = [(0, "Username: foo"); (0, "Password: bar"); (0, "Username: hello");
        (0, "Password: world"); (0, "Total number of passwords:");
        (0, "2")]%string
  /\ filter (fun ev => fst ev =? 1)
       (fst (gather_processors 23 (processor_functions 22) input_lines))
     = [(1, "Hello world!"); (1, "Someone yelled 'Hello!'");
        (1, "Someone yelled 'Hello again!'");
        (1, "Someone yelled 'Goodbye!'")]%string
  /\ print_events processor_names
       (fst (gather_processors 23 (processor_functions 22) input_lines))
       (snd (gather_processors 23 (processor_functions 22) input_lines))
     = (["From exclaim_async_iterable: Hello world!";
         "From exclaim_async_iterable: Someone yelled 'Hello!'";
         "From count_passwords_async_iterable: Username: foo";
         "From count_passwords_async_iterable: Password: bar";
         "From exclaim_async_iterable: Someone yelled 'Hello again!'";
         "From count_passwords_async_iterable: Username: hello";
         "From count_passwords_async_iterable: Password: world";
         "From exclaim_async_iterable: Someone yelled 'Goodbye!'";
         "From count_passwords_async_iterable: Total number of passwords:";
         "From count_passwords_async_iterable: 2"]%string, Completed).
Proof.
  apply (script_output input_lines 0 0).
  repeat constructor; intros H; vm_compute in H; try discriminate H;
    vm_compute; discriminate.
Defined.

(** X11: the loop over the events never fails on [processor_functions[idx]].
    Every index [gather_processors] yields is below the number of
    processors, so with one name for each processor the loop prints one line
    for each event and ends as the scheduler does. *)
Theorem print_loop_index_in_range {T} {HT : PyValue T} (fuel : nat)
    (pfs : list (asyncgen T (value T) -> asyncgen T string)) (xs : list T)
    (names : list string) :
  length names = length pfs ->
  (forall ev, In ev (fst (gather_processors fuel pfs xs)) ->
              fst ev < length pfs)
  /\ print_events names (fst (gather_processors fuel pfs xs))
       (snd (gather_processors fuel pfs xs))
     = (map (fun ev =>
               ("From " ++ nth (fst ev) names EmptyString
                ++ ": " ++ snd ev)%string)
          (fst (gather_processors fuel pfs xs)),
        snd (gather_processors fuel pfs xs)).
Proof.
  intros Hlen. split.
  - intros ev. apply gather_event_index.
  - apply print_events_in_range. intros ev Hev. rewrite Hlen.
    exact (gather_event_index fuel pfs xs ev Hev).
Qed.

(** X11 at a run that a processor aborts: the loop ends with the exception
    of the processor. *)
Lemma print_loop_index_in_range_witness :
  (forall ev,
      In ev (fst (gather_processors 1 failing_and_stubborn
                    ["Hi!"%string])) ->
      fst ev < 2)
  /\ print_events ["failing"; "stubborn"]%string
       (fst (gather_processors 1 failing_and_stubborn ["Hi!"%string]))
       (snd (gather_processors 1 failing_and_stubborn ["Hi!"%string]))
     = (map (fun ev =>
               ("From " ++ nth (fst ev) ["failing"; "stubborn"]%string
                             EmptyString
                ++ ": " ++ snd ev)%string)
          (fst (gather_processors 1 failing_and_stubborn ["Hi!"%string])),
        snd (gather_processors 1 failing_and_stubborn ["Hi!"%string])).
Proof.
  apply (print_loop_index_in_range 1 failing_and_stubborn ["Hi!"%string]
           ["failing"; "stubborn"]%string).
  reflexivity.
Defined.

(** X12: [unwrap_aiter] answers an [await] with [None], so it cannot drive
    a generator that waits for input: on [read_input_lines(sentinel)] the
    first [send] starts the relay, which suspends; the second resumes its
    [await] with [None], which the relay yields; and [exn.args[0]] raises
    [IndexError] before anything is returned. *)
Theorem unwrap_read_input_lines {T} (k : nat) :
  unwrap_aiter 0 (@read_input_lines T) = ([], Unfinished)
  /\ unwrap_aiter 1 (@read_input_lines T) = ([], Unfinished)
  /\ unwrap_aiter (S (S k)) (@read_input_lines T)
     = ([], Aborted IndexError)
  /\ consume 2 (@read_input_lines T) VNone [VNone]
     = [Suspends; Element VNone].
Proof. repeat split. Qed.
